(** * Key-combination capture tools: a shallow embedding

    The development follows [scripts/generate_key_combos.py] (the full-sweep
    orchestrator) and [scripts/retry_failed_combos.py] (the retry
    orchestrator).  Python values that come out of [json.load] are embedded
    as the inductive type [json]; dictionaries are association lists in
    insertion order; Python sets are [gset]s; exceptions are an explicit
    error monad, and the files of the working directory an explicit state.
    The log and the console output are left out. *)

From Stdlib Require Import ZArith String Ascii List Sorting.Sorted.
From Stdlib Require Import HexadecimalString DecimalString OrderedTypeEx.
From stdpp Require Import base option list gmap strings sorting.

Set Warnings "-register-all,-clear-no-such-hyp".

Local Open Scope string_scope.
Local Open Scope list_scope.

(** ** The fragment of the Python runtime the scripts rely on *)

Module Py.
Local Open Scope string_scope.

(** *** Exceptions *)

Inductive exn :=
| KeyError | TypeError | AttributeError | ValueError
| JSONDecodeError | FileNotFoundError | EOFError
| KeyboardInterrupt
| SystemExit (code : Z).

(** [except Exception] catches everything but the two [BaseException]s. *)
Definition is_Exception (e : exn) : bool :=
  match e with
  | KeyboardInterrupt | SystemExit _ => false
  | _ => true
  end.

(** A computation that returns or raises. *)
Inductive result (A : Type) :=
| Ok (a : A)
| Raise (e : exn).
Global Arguments Ok {A} a.
Global Arguments Raise {A} e.

Global Instance exn_eq_dec : EqDecision exn.
Proof. solve_decision. Defined.
Global Instance result_eq_dec {A} `{EqDecision A} : EqDecision (result A).
Proof. solve_decision. Defined.

Definition bind {A B} (m : result A) (k : A → result B) : result B :=
  match m with
  | Ok a => k a
  | Raise e => Raise e
  end.

(** *** Strings

    A [str] is embedded as a [string] of bytes.  The character classes
    below are those of the ASCII range, on which they agree with
    CPython; every key name of the catalog is ASCII. *)

Definition is_lower (c : ascii) : bool :=
  let n := N_of_ascii c in ((97 <=? n) && (n <=? 122))%N.
Definition is_upper (c : ascii) : bool :=
  let n := N_of_ascii c in ((65 <=? n) && (n <=? 90))%N.
Definition is_digit (c : ascii) : bool :=
  let n := N_of_ascii c in ((48 <=? n) && (n <=? 57))%N.
Definition is_alpha (c : ascii) : bool := is_lower c || is_upper c.
Definition is_space (c : ascii) : bool :=
  let n := N_of_ascii c in
  ((n =? 32) || ((9 <=? n) && (n <=? 13)) || ((28 <=? n) && (n <=? 31)))%N.

Definition upper_char (c : ascii) : ascii :=
  if is_lower c then ascii_of_N (N_of_ascii c - 32) else c.
Definition lower_char (c : ascii) : ascii :=
  if is_upper c then ascii_of_N (N_of_ascii c + 32) else c.

Fixpoint str_map (f : ascii → ascii) (s : string) : string :=
  match s with
  | EmptyString => EmptyString
  | String c r => String (f c) (str_map f r)
  end.

Fixpoint str_bind (f : ascii → string) (s : string) : string :=
  match s with
  | EmptyString => EmptyString
  | String c r => f c ++ str_bind f r
  end.

Fixpoint str_all (p : ascii → bool) (s : string) : bool :=
  match s with
  | EmptyString => true
  | String c r => p c && str_all p r
  end.

Fixpoint str_any (p : ascii → bool) (s : string) : bool :=
  match s with
  | EmptyString => false
  | String c r => p c || str_any p r
  end.

Definition nonempty (s : string) : bool :=
  match s with EmptyString => false | _ => true end.

(** [s.upper()], [s.lower()], [s.isalpha()], [s.isalnum()]. *)
Definition upper (s : string) : string := str_map upper_char s.
Definition lower (s : string) : string := str_map lower_char s.
Definition isalpha (s : string) : bool := nonempty s && str_all is_alpha s.
Definition isalnum (s : string) : bool :=
  nonempty s && str_all (λ c, is_alpha c || is_digit c) s.

(** [s.startswith(p)] and the slice [s[1:]]. *)
Definition startswith (p s : string) : bool := String.prefix p s.
Definition tail (s : string) : string :=
  match s with EmptyString => EmptyString | String _ r => r end.

(** [sep.join(parts)]. *)
Definition join (sep : string) (parts : list string) : string :=
  String.concat sep parts.

(** [s.strip()]. *)
Fixpoint lstrip (s : string) : string :=
  match s with
  | String c r => if is_space c then lstrip r else s
  | EmptyString => EmptyString
  end.
Fixpoint rstrip (s : string) : string :=
  match s with
  | EmptyString => EmptyString
  | String c r =>
      match rstrip r with
      | EmptyString => if is_space c then EmptyString else String c EmptyString
      | r' => String c r'
      end
  end.
Definition strip (s : string) : string := rstrip (lstrip s).

(** [int(s)]: surrounding white space, an optional sign, then decimal
    digits with single underscores between them; [None] stands for
    [ValueError]. *)
Definition digit_val (c : ascii) : Z := Z.of_N (N_of_ascii c) - 48.

Fixpoint digits_from (acc : Z) (s : string) : option Z :=
  match s with
  | EmptyString => Some acc
  | String c r =>
      if is_digit c then digits_from (10 * acc + digit_val c) r
      else if Ascii.eqb c "_" then
        match r with
        | String d r' =>
            if is_digit d then digits_from (10 * acc + digit_val d) r'
            else None
        | EmptyString => None
        end
      else None
  end.

Definition unsigned_of_str (s : string) : option Z :=
  match s with
  | String c r => if is_digit c then digits_from (digit_val c) r else None
  | EmptyString => None
  end.

Definition int_of_str (s : string) : option Z :=
  match strip s with
  | String "-" r => Z.opp <$> unsigned_of_str r
  | String "+" r => unsigned_of_str r
  | t => unsigned_of_str t
  end.

(** *** Numbers to text *)

(** [str(n)] for an [int]. *)
Definition dec (n : Z) : string := NilZero.string_of_int (Z.to_int n).

Definition hex_digits (n : N) : string :=
  upper (HexadecimalString.NilZero.string_of_uint (N.to_hex_uint n)).

Fixpoint replicate_char (c : ascii) (n : nat) : string :=
  match n with O => EmptyString | S n => String c (replicate_char c n) end.

(** [format(n, '0wX')]: upper-case hexadecimal, zero-padded after the
    sign to [w] columns. *)
Definition hex_of_int (w : nat) (n : Z) : string :=
  let sign := if (n <? 0)%Z then "-" else "" in
  let digits := hex_digits (Z.abs_N n) in
  sign ++ replicate_char "0" (w - String.length sign - String.length digits)
       ++ digits.

(** [format(s, 'w')] for a [str] pads on the right, [format(n, 'w')] for
    an [int] pads on the left. *)
Definition ljust (w : nat) (s : string) : string :=
  s ++ replicate_char " " (w - String.length s).
Definition rjust (w : nat) (s : string) : string :=
  replicate_char " " (w - String.length s) ++ s.

(** *** Values

    What [json.load] returns, and what the scripts build from it.
    [JNull] is [None]; an object is the list of its items in insertion
    order, with pairwise different keys.  JSON numbers with a fraction
    or an exponent are left out: the helper reports integers. *)

Inductive json :=
| JNull
| JBool (b : bool)
| JInt (n : Z)
| JStr (s : string)
| JArr (items : list json)
| JObj (fields : list (string * json)).

Fixpoint lookup_field (k : string) (fields : list (string * json))
  : option json :=
  match fields with
  | [] => None
  | (k', v) :: rest => if String.eqb k' k then Some v else lookup_field k rest
  end.

(** [isinstance(v, dict)]. *)
Definition is_dict (v : json) : bool :=
  match v with JObj _ => true | _ => false end.

(** [v[k]] for a string [k]. *)
Definition getitem (v : json) (k : string) : result json :=
  match v with
  | JObj fields =>
      match lookup_field k fields with
      | Some x => Ok x
      | None => Raise KeyError
      end
  | _ => Raise TypeError
  end.

(** [v.get(k, default)]; only a [dict] has the method. *)
Definition get (v : json) (k : string) (dflt : json) : result json :=
  match v with
  | JObj fields => Ok (default dflt (lookup_field k fields))
  | _ => Raise AttributeError
  end.

(** [bool(v)], the test of [if v:]. *)
Definition truthy (v : json) : bool :=
  match v with
  | JNull => false
  | JBool b => b
  | JInt n => negb (n =? 0)%Z
  | JStr s => nonempty s
  | JArr items => match items with [] => false | _ => true end
  | JObj fields => match fields with [] => false | _ => true end
  end.

(** [repr(s)] for a [str]. *)
Definition hex2 (n : N) : string :=
  let d := HexadecimalString.NilZero.string_of_uint (N.to_hex_uint n) in
  replicate_char "0" (2 - String.length d) ++ d.

Definition repr_char (q c : ascii) : string :=
  let n := N_of_ascii c in
  if Ascii.eqb c "\" then "\\"
  else if Ascii.eqb c q then String "\" (String q "")
  else if (n =? 10)%N then "\n"
  else if (n =? 13)%N then "\r"
  else if (n =? 9)%N then "\t"
  else if ((n <? 32) || (n =? 127))%N then "\x" ++ hex2 n
  else String c "".

Definition squote : ascii := ascii_of_N 39.
Definition dquote : ascii := ascii_of_N 34.

Definition repr_str (s : string) : string :=
  let q : ascii :=
    if str_any (Ascii.eqb squote) s && negb (str_any (Ascii.eqb dquote) s)
    then dquote else squote in
  String q (str_bind (repr_char q) s) ++ String q "".

(** [repr(v)]. *)
Fixpoint repr (v : json) : string :=
  match v with
  | JNull => "None"
  | JBool true => "True"
  | JBool false => "False"
  | JInt n => dec n
  | JStr s => repr_str s
  | JArr items => "[" ++ join ", " (map repr items) ++ "]"
  | JObj fields =>
      "{" ++ join ", " (map (λ kv, repr_str (fst kv) ++ ": " ++ repr (snd kv))
                            fields) ++ "}"
  end.

(** [str(v)]. *)
Definition str (v : json) : string :=
  match v with
  | JStr s => s
  | _ => repr v
  end.

(** [f"{v:0wX}"]: defined on [int] and [bool]. *)
Definition format_hex (w : nat) (v : json) : result string :=
  match v with
  | JInt n => Ok (hex_of_int w n)
  | JBool b => Ok (hex_of_int w (Z.b2z b))
  | JStr _ => Raise ValueError
  | _ => Raise TypeError
  end.

(** [f"{v:w}"]. *)
Definition format_width (w : nat) (v : json) : result string :=
  match v with
  | JInt n => Ok (rjust w (dec n))
  | JBool b => Ok (rjust w (dec (Z.b2z b)))
  | JStr s => Ok (ljust w s)
  | _ => Raise TypeError
  end.

End Py.

(** ** Equality and order of Python values *)

Module PyOrder.
Import Py.

(** [a == b]: [bool] is a subtype of [int], dictionaries compare
    regardless of the order of their items. *)
Definition as_int (v : json) : option Z :=
  match v with
  | JBool b => Some (Z.b2z b)
  | JInt n => Some n
  | _ => None
  end.

Fixpoint py_eq (a b : json) : bool :=
  match a, b with
  | JNull, JNull => true
  | JBool x, _ => match as_int b with Some n => (Z.b2z x =? n)%Z | None => false end
  | JInt x, _ => match as_int b with Some n => (x =? n)%Z | None => false end
  | JStr x, JStr y => String.eqb x y
  | JArr xs, JArr ys =>
      (fix go (xs ys : list json) : bool :=
         match xs, ys with
         | [], [] => true
         | x :: xs', y :: ys' => py_eq x y && go xs' ys'
         | _, _ => false
         end) xs ys
  | JObj f, JObj g =>
      (length f =? length g)%nat &&
      (fix go (f : list (string * json)) : bool :=
         match f with
         | [] => true
         | (k, v) :: f' =>
             match lookup_field k g with
             | Some w => py_eq v w && go f'
             | None => false
             end
         end) f
  | _, _ => false
  end.

(** The values that may be hashed into a set or compared by [<] in the
    scripts: [None], integers (with [True] = 1 and [False] = 0) and
    strings.  Lists and dictionaries are unhashable. *)
Inductive atom :=
| ANone
| AInt (n : Z)
| AStr (s : string).

Global Instance atom_eq_dec : EqDecision atom.
Proof. solve_decision. Defined.

Global Instance atom_countable : Countable atom.
Proof.
  refine (inj_countable'
    (λ a, match a with
          | ANone => inl ()
          | AInt n => inr (inl n)
          | AStr s => inr (inr s)
          end)
    (λ x, match x with
          | inl () => ANone
          | inr (inl n) => AInt n
          | inr (inr s) => AStr s
          end) _).
  by intros [].
Defined.

Definition atom_of (v : json) : result atom :=
  match v with
  | JNull => Ok ANone
  | JBool b => Ok (AInt (Z.b2z b))
  | JInt n => Ok (AInt n)
  | JStr s => Ok (AStr s)
  | JArr _ | JObj _ => Raise TypeError
  end.

(** [a < b]: defined between two integers and between two strings
    (by code point, which on UTF-8 bytes is the byte order). *)
Definition atom_lt (a b : atom) : result bool :=
  match a, b with
  | AInt x, AInt y => Ok (x <? y)%Z
  | AStr x, AStr y => Ok (String.ltb x y)
  | _, _ => Raise TypeError
  end.

(** Tuples compare at the first position where they differ. *)
Fixpoint tuple_lt (t u : list atom) : result bool :=
  match t, u with
  | a :: t', b :: u' =>
      if decide (a = b) then tuple_lt t' u' else atom_lt a b
  | [], _ :: _ => Ok true
  | _, [] => Ok false
  end.

Definition is_ok {A} (r : result A) : bool :=
  match r with Ok _ => true | Raise _ => false end.

(** Stable insertion by [<] alone, as [list.sort] compares. *)
Fixpoint insert_by {A} (lt : A → A → bool) (x : A) (l : list A) : list A :=
  match l with
  | [] => [x]
  | y :: l' => if lt y x then y :: insert_by lt x l' else x :: y :: l'
  end.

Definition stable_sort {A} (lt : A → A → bool) (l : list A) : list A :=
  foldr (insert_by lt) [] l.

Definition tuple_ltb (t u : list atom) : bool :=
  match tuple_lt t u with Ok b => b | Raise _ => false end.

(** [sorted(l, key=key)].  The key function is applied to every item
    first; a key that raises ends the sort.  CPython's sort is stable
    and raises [TypeError] when it compares two keys that have no
    order; the embedding raises whenever the list holds such a pair
    (or a key with a list or a dictionary among its components), and
    otherwise returns the one stable arrangement. *)
Fixpoint keys_of {A} (key : A → result (list atom)) (l : list A)
  : result (list (list atom * A)) :=
  match l with
  | [] => Ok []
  | x :: l' =>
      bind (key x) (λ k,
      bind (keys_of key l') (λ ks, Ok ((k, x) :: ks)))
  end.

Definition comparable (ks : list (list atom)) : bool :=
  forallb (λ t, forallb (λ u, is_ok (tuple_lt t u)) ks) ks.

Definition sorted {A} (key : A → result (list atom)) (l : list A)
  : result (list A) :=
  bind (keys_of key l) (λ ks,
    if comparable (fst <$> ks)
    then Ok (snd <$> stable_sort (λ p q, tuple_ltb (fst p) (fst q)) ks)
    else Raise TypeError).

End PyOrder.

(** ** [pynput.keyboard] *)

Module Pynput.

(** The members of the enumeration [Key] the scripts name; [Key_f n] is
    [getattr(Key, f'f{n}')]. *)
Inductive Key :=
| Key_space | Key_enter | Key_tab | Key_backspace | Key_esc
| Key_up | Key_down | Key_left | Key_right
| Key_home | Key_end | Key_page_up | Key_page_down
| Key_insert | Key_delete
| Key_f (n : Z).

(** What the controller presses: a [Key], or [KeyCode.from_char(char)]. *)
Inductive pynput_key :=
| OfKey (k : Key)
| from_char (char : string).

Global Instance Key_eq_dec : EqDecision Key.
Proof. solve_decision. Defined.
Global Instance pynput_key_eq_dec : EqDecision pynput_key.
Proof. solve_decision. Defined.

End Pynput.

(** ** The surroundings of a run *)

Module Sys.
Import Py Pynput.

(** A file holds JSON text, or anything else (the helper binary, the
    text report, a damaged store); [json.load] succeeds on the first
    kind only. *)
Inductive file :=
| JsonFile (v : json)
| OtherFile (text : string).

Abbreviation fs := (gmap string file).

(** What the console delivers to the single [input()] of a run. *)
Inductive stdin_event :=
| Line (s : string)
| CtrlC
| Eof.

(** What a run cannot decide by itself: the console, the clock (read as
    one instant for the whole run), and what the helper process prints
    (parsed) when the controller presses a key under the given modifiers;
    [None] covers a timeout, empty output and text that is not JSON.
    Launching the helper and writing a file are taken to succeed. *)
Record env := {
  stdin : stdin_event;
  now : string;
  helper : pynput_key → bool → bool → bool → option json;
}.

(** Computations over the file system that return or raise; the files
    written before an exception stay written. *)
Definition M (A : Type) : Type := fs → result A * fs.

Global Instance M_ret : MRet M := λ A a σ, (Ok a, σ).
Global Instance M_bind : MBind M := λ A B k m σ,
  match m σ with
  | (Ok a, σ') => k a σ'
  | (Raise e, σ') => (Raise e, σ')
  end.
Global Instance result_ret : MRet result := λ A a, Ok a.
Global Instance result_bind : MBind result := λ A B k m, Py.bind m k.

Definition raise {A} (e : exn) : M A := λ σ, (Raise e, σ).
Definition lift {A} (r : result A) : M A := λ σ, (r, σ).

(** [try: m except ...: h e]; the handler declines with [None]. *)
Definition try_except {A} (m : M A) (h : exn → option (M A)) : M A := λ σ,
  match m σ with
  | (Raise e, σ') =>
      match h e with
      | Some m' => m' σ'
      | None => (Raise e, σ')
      end
  | r => r
  end.

(** [for x in l: body], threading the variables the body assigns. *)
Fixpoint for_each {A S} (l : list A) (body : A → S → M S) (s : S) : M S :=
  match l with
  | [] => mret s
  | x :: l' => s' ← body x s; for_each l' body s'
  end.

Fixpoint for_each_r {A S} (l : list A) (body : A → S → result S) (s : S)
  : result S :=
  match l with
  | [] => Ok s
  | x :: l' => s' ← body x s; for_each_r l' body s'
  end.

(** [Path(p).exists()]. *)
Definition path_exists (p : string) : M bool := λ σ,
  (Ok (bool_decide (is_Some (σ !! p))), σ).

(** [with open(p) as f: json.load(f)]. *)
Definition json_load (p : string) : M json := λ σ,
  match σ !! p with
  | Some (JsonFile v) => (Ok v, σ)
  | Some (OtherFile _) => (Raise JSONDecodeError, σ)
  | None => (Raise FileNotFoundError, σ)
  end.

(** [with open(p, 'w') as f: json.dump(v, f)]. *)
Definition json_dump (p : string) (v : json) : M () := λ σ,
  (Ok (), <[p := JsonFile v]> σ).

(** [open(p, 'w')] truncates, [f.write(s)] appends. *)
Definition open_w (p : string) : M () := λ σ,
  (Ok (), <[p := OtherFile ""]> σ).
Definition write (p : string) (s : string) : M () := λ σ,
  match σ !! p with
  | Some (OtherFile t) => (Ok (), <[p := OtherFile (t ++ s)%string]> σ)
  | _ => (Ok (), <[p := OtherFile s]> σ)
  end.

(** [input()]. *)
Definition input (e : env) : M string :=
  match stdin e with
  | Line s => mret s
  | CtrlC => raise KeyboardInterrupt
  | Eof => raise EOFError
  end.

(** How [sys.exit(main())] ends the process: with the exit code [main]
    chose, or with the traceback of an exception nobody caught. *)
Inductive outcome :=
| Exit (code : Z)
| Uncaught (e : exn).

Definition sys_exit (r : result Z) : outcome :=
  match r with
  | Ok code => Exit code
  | Raise (SystemExit code) => Exit code
  | Raise e => Uncaught e
  end.

End Sys.

(** ** [generate_key_combos.py] *)

Module GenerateKeyCombos.
Import Py PyOrder Pynput Sys.

(** US keyboard layout - all pressable keys. *)
Definition US_KEYS : list string :=
  [ (* Letters *)
    "a"; "b"; "c"; "d"; "e"; "f"; "g"; "h"; "i"; "j"; "k"; "l"; "m";
    "n"; "o"; "p"; "q"; "r"; "s"; "t"; "u"; "v"; "w"; "x"; "y"; "z";
    (* Numbers *)
    "0"; "1"; "2"; "3"; "4"; "5"; "6"; "7"; "8"; "9";
    (* Symbols *)
    "`"; "-"; "="; "["; "]"; "\"; ";"; "'"; ","; "."; "/";
    (* Special keys *)
    "space"; "enter"; "tab"; "backspace"; "escape";
    (* Arrow keys *)
    "up"; "down"; "left"; "right";
    (* Function keys *)
    "f1"; "f2"; "f3"; "f4"; "f5"; "f6"; "f7"; "f8"; "f9"; "f10"; "f11"; "f12";
    (* Other keys *)
    "home"; "end"; "page up"; "page down"; "insert"; "delete" ].

(** Modifier combinations, as (ctrl, shift, alt). *)
Definition MODIFIERS : list (bool * bool * bool) :=
  [ (false, false, false);  (* No modifiers *)
    (true, false, false);   (* Ctrl *)
    (false, true, false);   (* Shift *)
    (false, false, true);   (* Alt *)
    (true, true, false);    (* Ctrl+Shift *)
    (true, false, true);    (* Ctrl+Alt *)
    (false, true, true);    (* Shift+Alt *)
    (true, true, true) ].   (* Ctrl+Shift+Alt *)


(** A line feed. *)
Definition nl : string := String (ascii_of_N 10) "".

(** [find_capture_keys_exe]. *)
Definition find_capture_keys_exe : M (option string) :=
  (* Check in zig-out/bin first (if built with zig build) *)
  b ← path_exists "zig-out/bin/capture_keys.exe";
  if b : bool then mret (Some "zig-out/bin/capture_keys.exe") else
  (* Check in current directory *)
  b ← path_exists "capture_keys.exe";
  if b : bool then mret (Some "capture_keys.exe") else
  (* Check in scripts directory *)
  b ← path_exists "scripts/capture_keys.exe";
  if b : bool then mret (Some "scripts/capture_keys.exe") else
  mret None.

(** Special keys - these must use Key objects, not KeyCode. *)
Definition special_map : gmap string Key :=
  list_to_map [
    ("space", Key_space);
    ("enter", Key_enter);
    ("tab", Key_tab);
    ("backspace", Key_backspace);
    ("escape", Key_esc);
    ("up", Key_up);
    ("down", Key_down);
    ("left", Key_left);
    ("right", Key_right);
    ("home", Key_home);
    ("end", Key_end);
    ("page up", Key_page_up);
    ("page down", Key_page_down);
    ("insert", Key_insert);
    ("delete", Key_delete) ].

(** Symbol keys - use KeyCode for single characters. *)
Definition symbol_map : gmap string string :=
  list_to_map [
    ("`", "`"); ("-", "-"); ("=", "="); ("[", "["); ("]", "]"); ("\", "\");
    (";", ";"); ("'", "'"); (",", ","); (".", "."); ("/", "/") ].

(** The function-key branch of [map_key_to_pynput]: [int(key[1:])]
    within 1..12, a [ValueError] falling through. *)
Definition function_key (key : string) : option pynput_key :=
  if startswith "f" key then
    match int_of_str (tail key) with
    | Some num =>
        if bool_decide (1 ≤ num ≤ 12)%Z then Some (OfKey (Key_f num))
        else None
    | None => None
    end
  else None.

(** [map_key_to_pynput]; [None] is the unmapped sentinel. *)
Definition map_key_to_pynput (key : string) : option pynput_key :=
  match special_map !! key with
  | Some k => Some (OfKey k)
  | None =>
  match function_key key with
  | Some k => Some k
  | None =>
  (* Letters and digits - use KeyCode *)
  if isalnum key then
    Some (from_char (if isalpha key then lower key else key))
  else
  match symbol_map !! key with
  | Some char =>
      if (String.length char =? 1)%nat then Some (from_char char) else None
  | None => None
  end end end.

(** [capture_key_combo]: no simulation for an unmapped key, otherwise
    what the helper printed; [JNull] is the [None] of a failure. *)
Definition capture_key_combo (e : env) (key : string)
    (ctrl shift alt : bool) (exe_path : string) : json :=
  match map_key_to_pynput key with
  | None => JNull
  | Some pynput_key => default JNull (helper e pynput_key ctrl shift alt)
  end.

(** [generate_combinations]: the sweep over the two catalogs.  The
    counters [current], [successful] and [failed] only feed the log. *)
Definition generate_combinations (e : env) (exe_path : string)
  : result (list json) :=
  for_each_r US_KEYS (λ key results,
    for_each_r MODIFIERS (λ '(ctrl, shift, alt) results,
      let combo_name := [] in
      let combo_name := if ctrl then combo_name ++ ["Ctrl"] else combo_name in
      let combo_name := if shift then combo_name ++ ["Shift"] else combo_name in
      let combo_name := if alt then combo_name ++ ["Alt"] else combo_name in
      let combo_name := combo_name ++ [if isalpha key then upper key else key] in
      let combo_str := join "+" combo_name in
      let captured := capture_key_combo e key ctrl shift alt exe_path in
      if truthy captured then
        vk ← getitem captured "vk";
        vk_hex ← format_hex 2 vk;
        vk_decimal ← getitem captured "vk";
        ascii ← get captured "ascii" JNull;
        unicode ← get captured "unicode" JNull;
        ascii_cond ← get captured "ascii" JNull;
        ascii_hex ← (if truthy ascii_cond then
                       a ← get captured "ascii" (JInt 0);
                       h ← format_hex 2 a;
                       mret (JStr ("0x" ++ h))
                     else mret JNull);
        unicode_cond ← get captured "unicode" JNull;
        unicode_hex ← (if truthy unicode_cond then
                         u ← get captured "unicode" (JInt 0);
                         h ← format_hex 4 u;
                         mret (JStr ("0x" ++ h))
                       else mret JNull);
        let result := JObj [
          ("key", JStr key);
          ("modifiers", JObj [
             ("ctrl", JBool ctrl);
             ("shift", JBool shift);
             ("alt", JBool alt) ]);
          ("combo", JStr combo_str);
          ("vk", JStr ("0x" ++ vk_hex));
          ("vk_decimal", vk_decimal);
          ("ascii", ascii);
          ("unicode", unicode);
          ("ascii_hex", ascii_hex);
          ("unicode_hex", unicode_hex) ] in
        mret (results ++ [result])
      else
        mret results) results) [].

(** The sort key of [main]: (ctrl, shift, alt, key). *)
Definition sort_key (x : json) : result (list atom) :=
  m ← getitem x "modifiers"; c ← getitem m "ctrl";
  m ← getitem x "modifiers"; s ← getitem m "shift";
  m ← getitem x "modifiers"; a ← getitem m "alt";
  k ← getitem x "key";
  c ← atom_of c; s ← atom_of s; a ← atom_of a; k ← atom_of k;
  mret [c; s; a; k].

(** [mod_key != current_mod], with [None] before the first record. *)
Definition mod_key_differs (mod_key : json * json * json)
    (current_mod : option (json * json * json)) : bool :=
  match current_mod with
  | None => true
  | Some (c, s, a) =>
      negb (py_eq mod_key.1.1 c && py_eq mod_key.1.2 s && py_eq mod_key.2 a)
  end.

(** The loop of [main] that prints one record of the text report. *)
Definition write_record (txt_file : string) (combo : json)
    (current_mod : option (json * json * json))
  : M (option (json * json * json)) :=
  m ← lift (getitem combo "modifiers"); c ← lift (getitem m "ctrl");
  m ← lift (getitem combo "modifiers"); s ← lift (getitem m "shift");
  m ← lift (getitem combo "modifiers"); a ← lift (getitem m "alt");
  let mod_key := (c, s, a) in
  current_mod ←
    (if mod_key_differs mod_key current_mod then
       let mod_str := [] in
       let mod_str := if truthy c then mod_str ++ ["Ctrl"] else mod_str in
       let mod_str := if truthy s then mod_str ++ ["Shift"] else mod_str in
       let mod_str := if truthy a then mod_str ++ ["Alt"] else mod_str in
       let title := match mod_str with
                    | [] => "No modifiers"
                    | _ => join " + " mod_str
                    end in
       write txt_file (nl ++ title ++ ":" ++ nl);;
       write txt_file (replicate_char "-" 80 ++ nl);;
       mret (Some mod_key)
     else mret current_mod);
  label ← lift (x ← getitem combo "combo"; format_width 25 x);
  write txt_file ("  " ++ label ++ " ");;
  vk ← lift (x ← getitem combo "vk_decimal"; format_hex 2 x);
  write txt_file ("vk=0x" ++ vk ++ " ");;
  ascii ← lift (getitem combo "ascii");
  match ascii with
  | JNull => write txt_file "ascii=None "
  | _ =>
      t ← lift (x ← getitem combo "ascii"; d ← format_width 3 x;
                 x ← getitem combo "ascii"; h ← format_hex 2 x;
                 mret ("ascii=" ++ d ++ " (0x" ++ h ++ ") ")%string);
      write txt_file t
  end;;
  unicode ← lift (getitem combo "unicode");
  match unicode with
  | JNull => write txt_file "unicode=None"
  | _ =>
      t ← lift (x ← getitem combo "unicode"; d ← format_width 4 x;
                 x ← getitem combo "unicode"; h ← format_hex 4 x;
                 mret ("unicode=" ++ d ++ " (0x" ++ h ++ ")")%string);
      write txt_file t
  end;;
  write txt_file nl;;
  mret current_mod.

(** The part of [main] that writes the human-readable text file. *)
Definition write_report (e : env) (txt_file : string) (results : list json)
  : M () :=
  open_w txt_file;;
  write txt_file ("Key Combination Mappings (Captured Live)" ++ nl);;
  write txt_file (replicate_char "=" 80 ++ nl ++ nl);;
  write txt_file ("Generated: " ++ now e ++ nl);;
  write txt_file ("Total combinations: "
                  ++ dec (Z.of_nat (length results)) ++ nl ++ nl);;
  for_each results (write_record txt_file) None;;
  mret ().

(** [main]; the value returned is the argument of [sys.exit]. *)
Definition main (e : env) : M Z :=
  (* Check if executable exists *)
  exe_path ← find_capture_keys_exe;
  match exe_path with
  | None => mret 1%Z
  | Some exe_path =>
  cancelled ← try_except (input e;; mret false)
                (λ x, match x with
                      | KeyboardInterrupt => Some (mret true)
                      | _ => None
                      end);
  if cancelled : bool then mret 1%Z else
  results ← lift (generate_combinations e exe_path);
  (* Sort results *)
  results ← lift (sorted sort_key results);
  let output_file := "key_combinations.json" in
  json_dump output_file (JObj [
    ("generated_at", JStr (now e));
    ("total_combinations", JInt (Z.of_nat (length results)));
    ("combinations", JArr results) ]);;
  (* Also generate a human-readable text file *)
  write_report e "key_combinations.txt" results;;
  mret 0%Z
  end.

End GenerateKeyCombos.

(** ** [retry_failed_combos.py] *)

Module RetryFailedCombos.
Import Py PyOrder Pynput Sys GenerateKeyCombos.

(** A combination is the tuple [(key, ctrl, shift, alt)]. *)
Definition combo : Type := string * bool * bool * bool.

(** The same tuple as the members of a set see it. *)
Definition combo_atoms (c : combo) : atom * atom * atom * atom :=
  let '(key, ctrl, shift, alt) := c in
  (AStr key, AInt (Z.b2z ctrl), AInt (Z.b2z shift), AInt (Z.b2z alt)).

(** [for x in v]: the items of a list, the keys of a dictionary, the
    characters of a string. *)
Definition iterate (v : json) : result (list json) :=
  match v with
  | JArr items => Ok items
  | JObj fields => Ok ((λ kv, JStr kv.1) <$> fields)
  | JStr s => Ok ((λ c, JStr (String c "")) <$> list_ascii_of_string s)
  | _ => Raise TypeError
  end.

(** [load_existing_combinations]: the keys of the store, as found. *)
Definition load_existing_combinations (json_path : string)
  : M (gset (atom * atom * atom * atom)) :=
  b ← path_exists json_path;
  if negb b then mret ∅ else
  try_except
    (data ← json_load json_path;
     items ← lift (l ← get data "combinations" (JArr []); iterate l);
     lift (for_each_r items (λ combo combinations,
       key ← getitem combo "key";
       mods ← getitem combo "modifiers";
       ctrl ← getitem mods "ctrl";
       shift ← getitem mods "shift";
       alt ← getitem mods "alt";
       key ← atom_of key; ctrl ← atom_of ctrl;
       shift ← atom_of shift; alt ← atom_of alt;
       mret ({[ (key, ctrl, shift, alt) ]} ∪ combinations)) ∅))
    (λ x, if is_Exception x then Some (mret ∅) else None).

(** [generate_all_combinations]: two nested loops appending to
    [all_combos]. *)
Definition generate_all_combinations : list combo :=
  foldl (λ all_combos key,
           foldl (λ all_combos '(ctrl, shift, alt),
                    all_combos ++ [(key, ctrl, shift, alt)])
                 all_combos MODIFIERS)
        [] US_KEYS.

(** [find_failed_combinations]. *)
Definition find_failed_combinations
    (existing : gset (atom * atom * atom * atom)) : list combo :=
  let all_combos := generate_all_combinations in
  filter (λ combo, combo_atoms combo ∉ existing) all_combos.

(** [format_combo_str]. *)
Definition format_combo_str (key : string) (ctrl shift alt : bool)
  : string :=
  let combo_name := [] in
  let combo_name := if ctrl then combo_name ++ ["Ctrl"] else combo_name in
  let combo_name := if shift then combo_name ++ ["Shift"] else combo_name in
  let combo_name := if alt then combo_name ++ ["Alt"] else combo_name in
  let combo_name := combo_name ++ [if isalpha key then upper key else key] in
  join "+" combo_name.

(** [retry_failed_combinations]; the counters only feed the log. *)
Definition retry_failed_combinations (e : env) (exe_path : string)
    (failed_combos : list combo) : result (list json) :=
  for_each_r failed_combos (λ '(key, ctrl, shift, alt) results,
    let combo_str := format_combo_str key ctrl shift alt in
    let captured := capture_key_combo e key ctrl shift alt exe_path in
    if truthy captured then
      vk ← getitem captured "vk";
      vk_hex ← format_hex 2 vk;
      vk_decimal ← getitem captured "vk";
      ascii ← get captured "ascii" JNull;
      unicode ← get captured "unicode" JNull;
      ascii_cond ← get captured "ascii" JNull;
      ascii_hex ← (if truthy ascii_cond then
                     a ← get captured "ascii" (JInt 0);
                     h ← format_hex 2 a;
                     mret (JStr ("0x" ++ h))
                   else mret JNull);
      unicode_cond ← get captured "unicode" JNull;
      unicode_hex ← (if truthy unicode_cond then
                       u ← get captured "unicode" (JInt 0);
                       h ← format_hex 4 u;
                       mret (JStr ("0x" ++ h))
                     else mret JNull);
      let result := JObj [
        ("key", JStr key);
        ("modifiers", JObj [
           ("ctrl", JBool ctrl);
           ("shift", JBool shift);
           ("alt", JBool alt) ]);
        ("combo", JStr combo_str);
        ("vk", JStr ("0x" ++ vk_hex));
        ("vk_decimal", vk_decimal);
        ("ascii", ascii);
        ("unicode", unicode);
        ("ascii_hex", ascii_hex);
        ("unicode_hex", unicode_hex) ] in
      mret (results ++ [result])
    else
      mret results) [].

(** The first part of [merge_results]: the records of the store, or
    none when the file is missing, unreadable or of another shape. *)
Definition read_existing_results (existing_path : string) : M (list json) :=
  let existing_results := [] in
  b ← path_exists existing_path;
  if b : bool then
    try_except
      (data ← json_load existing_path;
       combinations ← lift (get data "combinations" (JArr []));
       match combinations with
       | JArr items => mret items
       | _ => mret existing_results
       end)
      (λ x, if is_Exception x then Some (mret existing_results) else None)
  else mret existing_results.

(** The key [merge_results] computes for a record [c] with the
    dictionary of modifiers [mods]. *)
Definition key_tuple (c mods : json) : result combo :=
  key ← get c "key" (JStr "");
  ctrl ← get mods "ctrl" (JBool false);
  shift ← get mods "shift" (JBool false);
  alt ← get mods "alt" (JBool false);
  mret (str key, truthy ctrl, truthy shift, truthy alt).

(** Create a set of existing combo keys for deduplication. *)
Definition collect_existing_keys (existing_results : list json)
  : result (gset combo) :=
  for_each_r existing_results (λ c existing_keys,
    if is_dict c then
      mods ← get c "modifiers" (JObj []);
      if is_dict mods then
        k ← key_tuple c mods;
        mret ({[ k ]} ∪ existing_keys)
      else mret existing_keys
    else mret existing_keys) ∅.

(** Add new results, avoiding duplicates. *)
Definition add_new_results (new_results : list json)
    (state : list json * gset combo) : result (list json * gset combo) :=
  for_each_r new_results (λ result '(existing_results, existing_keys),
    if is_dict result then
      mods ← get result "modifiers" (JObj []);
      combo_key ← key_tuple result mods;
      if bool_decide (combo_key ∉ existing_keys) then
        mret (existing_results ++ [result], {[ combo_key ]} ∪ existing_keys)
      else mret (existing_results, existing_keys)
    else mret (existing_results, existing_keys)) state.

(** The second part of [merge_results], from the records read. *)
Definition merge_into (existing_results new_results : list json)
  : result (list json) :=
  existing_keys ← collect_existing_keys existing_results;
  '(existing_results, _) ←
    add_new_results new_results (existing_results, existing_keys);
  mret existing_results.

(** [merge_results]. *)
Definition merge_results (existing_path : string) (new_results : list json)
  : M (list json) :=
  existing_results ← read_existing_results existing_path;
  lift (merge_into existing_results new_results).

(** The sort key of [main]: (key, ctrl, shift, alt). *)
Definition sort_key (x : json) : result (list atom) :=
  k ← getitem x "key";
  m ← getitem x "modifiers"; c ← getitem m "ctrl";
  m ← getitem x "modifiers"; s ← getitem m "shift";
  m ← getitem x "modifiers"; a ← getitem m "alt";
  k ← atom_of k; c ← atom_of c; s ← atom_of s; a ← atom_of a;
  mret [k; c; s; a].

(** [v.isalpha()] and [v.upper()] exist on strings only. *)
Definition as_str (v : json) : result string :=
  match v with
  | JStr s => Ok s
  | _ => Raise AttributeError
  end.

(** The loop of [main] that prints one record of the text report. *)
Definition write_record (txt_path : string) (combo : json) : M () :=
  line ← lift (
    mods ← getitem combo "modifiers";
    let mod_str := [] in
    ctrl ← getitem mods "ctrl";
    let mod_str := if truthy ctrl then mod_str ++ ["Ctrl"] else mod_str in
    shift ← getitem mods "shift";
    let mod_str := if truthy shift then mod_str ++ ["Shift"] else mod_str in
    alt ← getitem mods "alt";
    let mod_str := if truthy alt then mod_str ++ ["Alt"] else mod_str in
    key ← getitem combo "key";
    key ← as_str key;
    let mod_str := mod_str ++ [if isalpha key then upper key else key] in
    let combo_name := join "+" mod_str in
    vk ← getitem combo "vk";
    vk ← format_width 6 vk;
    ascii ← get combo "ascii" (JStr "N/A");
    ascii ← format_width 4 ascii;
    unicode ← get combo "unicode" (JStr "N/A");
    unicode ← format_width 6 unicode;
    mret (ljust 30 combo_name ++ " | vk: " ++ vk ++ " | ascii: " ++ ascii
          ++ " | unicode: " ++ unicode ++ nl)%string);
  write txt_path line.

(** The part of [main] that writes the human-readable text file. *)
Definition write_report (txt_path generated_at : string)
    (all_results combinations : list json) : M () :=
  open_w txt_path;;
  write txt_path ("Key Combinations - Windows Console API Values" ++ nl);;
  write txt_path (replicate_char "=" 80 ++ nl ++ nl);;
  write txt_path ("Generated: " ++ generated_at ++ nl);;
  write txt_path ("Total combinations: "
                  ++ dec (Z.of_nat (length all_results)) ++ nl ++ nl);;
  for_each combinations (λ combo _, write_record txt_path combo) ();;
  mret ().

(** [main]; the value returned is the argument of [sys.exit]. *)
Definition main (e : env) : M Z :=
  (* Check if executable exists *)
  exe_path ← find_capture_keys_exe;
  match exe_path with
  | None => raise (SystemExit 1)
  | Some exe_path =>
  (* Load existing combinations *)
  let json_path := "key_combinations.json" in
  existing_combos ← load_existing_combinations json_path;
  (* Find failed combinations *)
  let failed_combos := find_failed_combinations existing_combos in
  match failed_combos with
  | [] => mret 0%Z
  | _ =>
  (* Ask for confirmation *)
  response ← input e;
  let response := lower (strip response) in
  if negb (String.eqb response "y") then mret 0%Z else
  (* Retry failed combinations *)
  new_results ← lift (retry_failed_combinations e exe_path failed_combos);
  match new_results with
  | [] => mret 0%Z
  | _ =>
  (* Merge with existing results *)
  all_results ← merge_results json_path new_results;
  (* Save merged results *)
  combinations ← lift (sorted sort_key all_results);
  let generated_at := now e in
  json_dump json_path (JObj [
    ("generated_at", JStr generated_at);
    ("total_combinations", JInt (Z.of_nat (length all_results)));
    ("combinations", JArr combinations) ]);;
  (* Also write human-readable output *)
  write_report "key_combinations.txt" generated_at all_results combinations;;
  mret 0%Z
  end end end.

End RetryFailedCombos.

Import Py PyOrder Pynput Sys.
Import GenerateKeyCombos RetryFailedCombos.

(** ** Vocabulary of the statements *)

(** The product of a key list and a modifier list, keys in the outer
    position. *)
Definition product (ks : list string) (ms : list (bool * bool * bool))
  : list combo :=
  k ← ks; (λ '(c, s, a), (k, c, s, a)) <$> ms.

(** How often a combination occurs in a list. *)
Definition occurrences (c : combo) (l : list combo) : nat :=
  length (filter (λ c', c' = c) l).

(** The label the sweep computes inline, lines 365-373 of
    [generate_combinations]. *)
Definition inline_combo_str (key : string) (ctrl shift alt : bool) : string :=
  let combo_name := [] in
  let combo_name := if ctrl then combo_name ++ ["Ctrl"] else combo_name in
  let combo_name := if shift then combo_name ++ ["Shift"] else combo_name in
  let combo_name := if alt then combo_name ++ ["Alt"] else combo_name in
  let combo_name := combo_name ++ [if isalpha key then upper key else key] in
  join "+" combo_name.

(** The label as the specification words it: the names of the active
    modifiers in the order Ctrl, Shift, Alt, then the key name, upper-cased
    when alphabetic, all joined by "+". *)
Definition spec_label (key : string) (ctrl shift alt : bool) : string :=
  join "+" ((if ctrl then ["Ctrl"] else []) ++
            (if shift then ["Shift"] else []) ++
            (if alt then ["Alt"] else []) ++
            [if isalpha key then upper key else key]).

(** The dictionary both capture loops build for a successful capture. *)
Definition capture_record (key : string) (ctrl shift alt : bool)
    (combo_str : string) (captured : json) : result json :=
  vk ← getitem captured "vk";
  vk_hex ← format_hex 2 vk;
  vk_decimal ← getitem captured "vk";
  ascii ← get captured "ascii" JNull;
  unicode ← get captured "unicode" JNull;
  ascii_cond ← get captured "ascii" JNull;
  ascii_hex ← (if truthy ascii_cond then
                 a ← get captured "ascii" (JInt 0);
                 h ← format_hex 2 a;
                 mret (JStr ("0x" ++ h))
               else mret JNull);
  unicode_cond ← get captured "unicode" JNull;
  unicode_hex ← (if truthy unicode_cond then
                   u ← get captured "unicode" (JInt 0);
                   h ← format_hex 4 u;
                   mret (JStr ("0x" ++ h))
                 else mret JNull);
  mret (JObj [
    ("key", JStr key);
    ("modifiers", JObj [
       ("ctrl", JBool ctrl);
       ("shift", JBool shift);
       ("alt", JBool alt) ]);
    ("combo", JStr combo_str);
    ("vk", JStr ("0x" ++ vk_hex));
    ("vk_decimal", vk_decimal);
    ("ascii", ascii);
    ("unicode", unicode);
    ("ascii_hex", ascii_hex);
    ("unicode_hex", unicode_hex) ]).

(** The combination key under which [merge_results] files a record: none
    for a value that is not a dictionary or whose modifiers are not one. *)
Definition record_key (c : json) : option combo :=
  match c with
  | JObj f =>
      match default (JObj []) (lookup_field "modifiers" f) with
      | JObj m =>
          Some (str (default (JStr "") (lookup_field "key" f)),
                truthy (default (JBool false) (lookup_field "ctrl" m)),
                truthy (default (JBool false) (lookup_field "shift" m)),
                truthy (default (JBool false) (lookup_field "alt" m)))
      | _ => None
      end
  | _ => None
  end.

(** The keys of the records of a list, in order, and as a set. *)
Definition keyed (l : list json) : list combo := omap record_key l.
Definition keys (l : list json) : gset combo := list_to_set (keyed l).

(** The records [merge_results] reads from the store file. *)
Definition stored_records (σ : fs) (path : string) : list json :=
  match σ !! path with
  | Some (JsonFile (JObj f)) =>
      match default (JArr []) (lookup_field "combinations" f) with
      | JArr items => items
      | _ => []
      end
  | _ => []
  end.

(** A record of the store as the orchestrators write it. *)
Definition store_record (key : string) (ctrl shift alt : bool)
    (vk ascii unicode : Z) : json :=
  JObj [
    ("key", JStr key);
    ("modifiers", JObj [
       ("ctrl", JBool ctrl);
       ("shift", JBool shift);
       ("alt", JBool alt) ]);
    ("combo", JStr (format_combo_str key ctrl shift alt));
    ("vk", JStr ("0x" ++ hex_of_int 2 vk));
    ("vk_decimal", JInt vk);
    ("ascii", JInt ascii);
    ("unicode", JInt unicode);
    ("ascii_hex", if (ascii =? 0)%Z then JNull
                  else JStr ("0x" ++ hex_of_int 2 ascii));
    ("unicode_hex", if (unicode =? 0)%Z then JNull
                    else JStr ("0x" ++ hex_of_int 4 unicode)) ].

(** A store file holding the given records. *)
Definition store_of (generated_at : string) (records : list json) : file :=
  JsonFile (JObj [
    ("generated_at", JStr generated_at);
    ("total_combinations", JInt (Z.of_nat (length records)));
    ("combinations", JArr records) ]).

Definition store_path : string := "key_combinations.json".

(** Sample records and a sample store. *)
Definition ctrl_a_old : json := store_record "a" true false false 65 1 1.
Definition ctrl_a_new : json := store_record "a" true false false 66 2 2.
Definition plain_b : json := store_record "b" false false false 66 98 98.
Definition plain_a : json := store_record "a" false false false 65 0 0.
Definition sample_fs : fs :=
  {[ store_path := store_of "2026-01-01 00:00:00" [ctrl_a_old] ]}.

(** A record [r] of a capture loop stems from the successful capture of
    one combination of [universe]. *)
Definition produced (e : env) (exe_path : string) (universe : list combo)
    (r : json) : Prop :=
  ∃ key ctrl shift alt,
    (key, ctrl, shift, alt) ∈ universe ∧
    truthy (capture_key_combo e key ctrl shift alt exe_path) = true ∧
    capture_record key ctrl shift alt (format_combo_str key ctrl shift alt)
      (capture_key_combo e key ctrl shift alt exe_path) = Ok r.

(** The rule that ties a hexadecimal field to its integer field: null for
    every value that tests false ([None], 0, ...), otherwise the rendering
    in [w] columns of a non-zero integer. *)
Definition hex_rule (w : nat) (value hex : json) : Prop :=
  (truthy value = false → hex = JNull) ∧
  (truthy value = true →
     ∃ n, as_int value = Some n ∧ n ≠ 0%Z ∧
          hex = JStr ("0x" ++ hex_of_int w n)).

(** A record carries the values the helper reported, and its two
    hexadecimal fields obey the rule. *)
Definition hex_fields_ok (e : env) (exe_path : string) (r : json) : Prop :=
  ∃ key ctrl shift alt reported ascii_hex unicode_hex,
    capture_key_combo e key ctrl shift alt exe_path = JObj reported ∧
    getitem r "key" = Ok (JStr key) ∧
    getitem r "ascii" = Ok (default JNull (lookup_field "ascii" reported)) ∧
    getitem r "unicode" = Ok (default JNull (lookup_field "unicode" reported)) ∧
    getitem r "ascii_hex" = Ok ascii_hex ∧
    getitem r "unicode_hex" = Ok unicode_hex ∧
    hex_rule 2 (default JNull (lookup_field "ascii" reported)) ascii_hex ∧
    hex_rule 4 (default JNull (lookup_field "unicode" reported)) unicode_hex.

(** A helper that answers for the plain "a" (with a zero character) and
    for Ctrl+"a" only. *)
Definition sample_env : env := {|
  stdin := Line "y";
  now := "2026-01-02 00:00:00";
  helper := λ k ctrl shift alt,
    if bool_decide (k = from_char "a" ∧ shift = false ∧ alt = false) then
      if ctrl
      then Some (JObj [("vk", JInt 65); ("ascii", JInt 1); ("unicode", JInt 1)])
      else Some (JObj [("vk", JInt 65); ("ascii", JInt 0); ("unicode", JInt 0)])
    else None;
|}.

(** What one turn of either capture loop does with the list of results. *)
Definition capture_turn (e : env) (exe_path : string) (key : string)
    (ctrl shift alt : bool) (results : list json) : result (list json) :=
  let captured := capture_key_combo e key ctrl shift alt exe_path in
  if truthy captured then
    r ← capture_record key ctrl shift alt (format_combo_str key ctrl shift alt)
          captured;
    mret (results ++ [r])
  else mret results.

(** [x] does not come after [y] in the order of the sort key [key]:
    both have keys, and the key of [y] is not below the key of [x]. *)
Definition key_le {A} (key : A → result (list atom)) (x y : A) : Prop :=
  ∃ kx ky, key x = Ok kx ∧ key y = Ok ky ∧ tuple_lt ky kx = Ok false.

(** The kinds of the components of a sort key. *)
Definition atom_kind (a : atom) : nat :=
  match a with ANone => 0 | AInt _ => 1 | AStr _ => 2 end.
Definition shape (t : list atom) : list nat := atom_kind <$> t.

(** The helper binary [find_capture_keys_exe] finds, if any. *)
Definition found_exe (σ : fs) : option string :=
  if bool_decide (is_Some (σ !! "zig-out/bin/capture_keys.exe"))
  then Some "zig-out/bin/capture_keys.exe"
  else if bool_decide (is_Some (σ !! "capture_keys.exe"))
  then Some "capture_keys.exe"
  else if bool_decide (is_Some (σ !! "scripts/capture_keys.exe"))
  then Some "scripts/capture_keys.exe"
  else None.

(** The set [load_existing_combinations] returns. *)
Definition loaded_keys (σ : fs) (path : string)
  : gset (atom * atom * atom * atom) :=
  match (load_existing_combinations path σ).1 with
  | Ok s => s
  | Raise _ => ∅
  end.

(** A result that raises nothing beyond [Exception]. *)
Definition tame {A} (r : result A) : Prop :=
  ∀ x, r = Raise x → is_Exception x = true.

(** A computation that raises nothing beyond [Exception] ... *)
Definition tameM {A} (m : M A) : Prop := ∀ σ, tame (m σ).1.

(** ... that leaves the file [p] as it is. *)
Definition keeps {A} (p : string) (m : M A) : Prop :=
  ∀ σ, (m σ).2 !! p = σ !! p.

(** ... that leaves [p] as it is and raises nothing beyond [Exception]. *)
Definition calm {A} (p : string) (m : M A) : Prop := keeps p m ∧ tameM m.

(** A working directory with the helper binary and a store of one
    record, and consoles that decline or interrupt. *)
Definition installed_fs : fs :=
  {[ "capture_keys.exe" := OtherFile "";
     store_path := store_of "2026-01-01 00:00:00" [plain_b] ]}.

Definition declining_env : env :=
  {| stdin := Line "n"; now := now sample_env; helper := helper sample_env |}.

Definition interrupted_env : env :=
  {| stdin := CtrlC; now := now sample_env; helper := helper sample_env |}.

(** A record whose key is a string and whose modifiers are booleans. *)
Definition plain_record (r : json) : Prop :=
  ∃ key ctrl shift alt mods,
    getitem r "key" = Ok (JStr key) ∧
    getitem r "modifiers" = Ok mods ∧
    getitem mods "ctrl" = Ok (JBool ctrl) ∧
    getitem mods "shift" = Ok (JBool shift) ∧
    getitem mods "alt" = Ok (JBool alt).

(** * Properties *)

(** Decidable closed goals are settled by evaluation. *)
Ltac by_compute := apply (bool_decide_unpack _); vm_compute; exact I.

Section generator.

Lemma inner_loop_spec (key : string) ms acc :
  foldl (λ (all_combos : list combo) '(ctrl, shift, alt),
           all_combos ++ [(key, ctrl, shift, alt)]) acc ms
  = acc ++ ((λ '(c, s, a), (key, c, s, a)) <$> ms).
Proof.
  revert acc. induction ms as [|[[c s] a] ms IH]; intros acc; simpl.
  - by rewrite app_nil_r.
  - rewrite IH. by rewrite <- app_assoc.
Qed.

Lemma outer_loop_spec ks ms acc :
  foldl (λ all_combos key,
           foldl (λ (all_combos : list combo) '(ctrl, shift, alt),
                    all_combos ++ [(key, ctrl, shift, alt)])
                 all_combos ms) acc ks
  = acc ++ product ks ms.
Proof.
  revert acc. induction ks as [|k ks IH]; intros acc; simpl.
  - by rewrite app_nil_r.
  - rewrite IH, inner_loop_spec. by rewrite <- app_assoc.
Qed.

Lemma generate_all_combinations_product :
  generate_all_combinations = product US_KEYS MODIFIERS.
Proof. unfold generate_all_combinations. by rewrite outer_loop_spec. Qed.

Lemma occurrences_absent c l : c ∉ l → occurrences c l = 0.
Proof.
  unfold occurrences. induction l as [|x l IH]; intros Hc; [done|].
  apply not_elem_of_cons in Hc as [Hne Hc].
  rewrite filter_cons. destruct (decide (x = c)); [done|]. by apply IH.
Qed.

Lemma occurrences_NoDup c l : NoDup l → c ∈ l → occurrences c l = 1.
Proof.
  induction 1 as [|x l Hx Hl IH]; intros Hc.
  - by apply elem_of_nil in Hc.
  - unfold occurrences. rewrite filter_cons.
    destruct (decide (x = c)) as [->|Hne].
    + simpl. f_equal. by apply occurrences_absent.
    + apply elem_of_cons in Hc as [->|Hc]; [done|]. by apply IH.
Qed.

Lemma product_elem_of ks ms k c s a :
  (k, c, s, a) ∈ product ks ms ↔ k ∈ ks ∧ (c, s, a) ∈ ms.
Proof.
  unfold product. rewrite list_elem_of_bind. split.
  - intros (k' & Hin & Hk'). apply list_elem_of_fmap in Hin as ([[c' s'] a'] & Heq & Hm).
    by simplify_eq.
  - intros [Hk Hm]. exists k. split; [|done].
    apply list_elem_of_fmap. by exists (c, s, a).
Qed.

Lemma product_NoDup ks ms : NoDup ks → NoDup ms → NoDup (product ks ms).
Proof.
  intros Hks Hms. unfold product. apply NoDup_bind; [| |done].
  - intros k1 k2 [[[k c] s] a] _ _ H1 H2.
    apply list_elem_of_fmap in H1 as ([[c1 s1] a1] & E1 & _).
    apply list_elem_of_fmap in H2 as ([[c2 s2] a2] & E2 & _).
    by simplify_eq.
  - intros k _. apply NoDup_fmap_2; [|done].
    intros [[c1 s1] a1] [[c2 s2] a2] ?. by simplify_eq.
Qed.

Lemma product_length ks ms :
  length (product ks ms) = length ks * length ms.
Proof.
  induction ks as [|k ks IH]; [done|].
  unfold product in *. rewrite bind_cons, length_app, length_fmap.
  simpl. f_equal. exact IH.
Qed.

Lemma US_KEYS_NoDup : NoDup US_KEYS.
Proof. by_compute. Qed.

Lemma MODIFIERS_NoDup : NoDup MODIFIERS.
Proof. by_compute. Qed.

(** The modifier catalog lists every triple of booleans. *)
Lemma MODIFIERS_complete c s a : (c, s, a) ∈ MODIFIERS.
Proof. destruct c, s, a; by_compute. Qed.

(** C6: the generator lists every pair of a cataloged key and a cataloged
    modifier state exactly once, and has |K| * 8 = 74 * 8 = 592 entries. *)
Theorem generate_all_combinations_exactly_once :
  length US_KEYS = 74 ∧ length MODIFIERS = 8 ∧
  length generate_all_combinations = length US_KEYS * 8 ∧
  length generate_all_combinations = 592 ∧
  ∀ k c s a, k ∈ US_KEYS → (c, s, a) ∈ MODIFIERS →
    occurrences (k, c, s, a) generate_all_combinations = 1.
Proof.
  rewrite generate_all_combinations_product, product_length.
  repeat split; try reflexivity.
  intros k c s a Hk Hm. apply occurrences_NoDup.
  - apply product_NoDup; [apply US_KEYS_NoDup | apply MODIFIERS_NoDup].
  - by apply product_elem_of.
Qed.

Lemma generate_all_combinations_exactly_once_witness :
  occurrences ("page up", true, false, true) generate_all_combinations = 1.
Proof.
  apply generate_all_combinations_exactly_once.
  - by_compute.
  - by_compute.
Defined.

End generator.

Section labels.


Example label_ctrl_shift_a :
  format_combo_str "a" true true false = "Ctrl+Shift+A".
Proof. reflexivity. Qed.

Example label_page_up :
  inline_combo_str "page up" false false true = "Alt+page up".
Proof. reflexivity. Qed.

End labels.

Section mapper.

Lemma special_keys_cataloged :
  dom special_map ⊆ list_to_set (C := gset string) US_KEYS.
Proof. by_compute. Qed.

Lemma symbol_keys_cataloged :
  dom symbol_map ⊆ list_to_set (C := gset string) US_KEYS.
Proof. by_compute. Qed.

Lemma symbol_chars_single :
  map_Forall (λ _ char, String.length char = 1) symbol_map.
Proof. by_compute. Qed.

Lemma US_KEYS_mapped : Forall (λ k, is_Some (map_key_to_pynput k)) US_KEYS.
Proof. by_compute. Qed.

(** Outside the catalog the three named cases of the mapper reduce to
    two. *)
Lemma map_key_to_pynput_outside k :
  k ∉ US_KEYS →
  map_key_to_pynput k
  = match function_key k with
    | Some fk => Some fk
    | None =>
        if isalnum k then Some (from_char (if isalpha k then lower k else k))
        else None
    end.
Proof.
  intros Hk.
  assert (special_map !! k = None) as Hsp.
  { apply not_elem_of_dom. intros Hd.
    apply special_keys_cataloged in Hd. by apply elem_of_list_to_set in Hd. }
  assert (symbol_map !! k = None) as Hsy.
  { apply not_elem_of_dom. intros Hd.
    apply symbol_keys_cataloged in Hd. by apply elem_of_list_to_set in Hd. }
  unfold map_key_to_pynput. rewrite Hsp, Hsy.
  destruct (function_key k); [done|]. by destruct (isalnum k).
Qed.

Lemma upper_case_letter_mapped c :
  is_upper c = true →
  map_key_to_pynput (String c "") = Some (from_char (String (lower_char c) "")).
Proof.
  destruct c as [[] [] [] [] [] [] [] []]; intros Hc;
    try discriminate Hc; reflexivity.
Qed.




Example map_upper_a : map_key_to_pynput "A" = Some (from_char "a").
Proof. reflexivity. Qed.

Example map_f01 : map_key_to_pynput "f01" = Some (OfKey (Key_f 1)).
Proof. reflexivity. Qed.

End mapper.

Section merge.

Implicit Types (A B out : list json) (K : gset combo) (c r : json).

Lemma read_existing_results_spec path σ :
  read_existing_results path σ = (Ok (stored_records σ path), σ).
Proof.
  unfold read_existing_results, stored_records, mbind, M_bind, path_exists,
    try_except, json_load.
  destruct (σ !! path) as [[v|t]|] eqn:Hp; simpl; rewrite ?Hp; simpl;
    try reflexivity.
  destruct v; simpl; try reflexivity.
  destruct (default (JArr []) (lookup_field "combinations" fields));
    reflexivity.
Qed.

Lemma merge_results_spec path B σ :
  merge_results path B σ = (merge_into (stored_records σ path) B, σ).
Proof.
  unfold merge_results, mbind at 1, M_bind.
  by rewrite read_existing_results_spec.
Qed.

(** One turn of the first loop. *)
Lemma existing_key_step c K :
  (if is_dict c then
     mods ← get c "modifiers" (JObj []);
     if is_dict mods then k ← key_tuple c mods; mret ({[ k ]} ∪ K)
     else mret K
   else mret K)
  = Ok (match record_key c with Some k => {[ k ]} ∪ K | None => K end).
Proof.
  destruct c; try done. simpl.
  destruct (default (JObj []) (lookup_field "modifiers" fields)); done.
Qed.

Lemma collect_existing_keys_from A K :
  for_each_r A (λ c existing_keys,
    if is_dict c then
      mods ← get c "modifiers" (JObj []);
      if is_dict mods then k ← key_tuple c mods; mret ({[ k ]} ∪ existing_keys)
      else mret existing_keys
    else mret existing_keys) K
  = Ok (keys A ∪ K).
Proof.
  revert K. induction A as [|c A IH]; intros K; simpl.
  - f_equal. unfold keys. simpl. set_solver.
  - rewrite existing_key_step. simpl. rewrite IH. f_equal.
    unfold keys, keyed. simpl. destruct (record_key c); simpl; set_solver.
Qed.

Lemma collect_existing_keys_spec A : collect_existing_keys A = Ok (keys A).
Proof.
  unfold collect_existing_keys. rewrite collect_existing_keys_from.
  f_equal. set_solver.
Qed.

(** One turn of the second loop. *)
Lemma new_result_step r out K :
  (if is_dict r then
     mods ← get r "modifiers" (JObj []);
     combo_key ← key_tuple r mods;
     if bool_decide (combo_key ∉ K) then
       mret (out ++ [r], {[ combo_key ]} ∪ K)
     else mret (out, K)
   else mret (out, K))
  = if is_dict r then
      match record_key r with
      | Some k => if bool_decide (k ∉ K) then Ok (out ++ [r], {[ k ]} ∪ K)
                  else Ok (out, K)
      | None => Raise AttributeError
      end
    else Ok (out, K).
Proof.
  destruct r; try done. simpl.
  destruct (default (JObj []) (lookup_field "modifiers" fields)); done.
Qed.

Lemma add_new_results_cons r B out K :
  add_new_results (r :: B) (out, K)
  = if is_dict r then
      match record_key r with
      | Some k => if bool_decide (k ∉ K)
                  then add_new_results B (out ++ [r], {[ k ]} ∪ K)
                  else add_new_results B (out, K)
      | None => Raise AttributeError
      end
    else add_new_results B (out, K).
Proof.
  unfold add_new_results at 1. simpl. rewrite new_result_step.
  destruct (is_dict r); [|done].
  destruct (record_key r); [|done]. by destruct (bool_decide _).
Qed.

Lemma keyed_app A B : keyed (A ++ B) = keyed A ++ keyed B.
Proof. apply omap_app. Qed.

Lemma keys_app A B : keys (A ++ B) = keys A ∪ keys B.
Proof. unfold keys. rewrite keyed_app. set_solver. Qed.

(** What the second loop appends: a sublist [B'] of the new results whose
    keys are fresh and pairwise different; every new dictionary ends up with
    its key in the set. *)
Lemma add_new_results_spec B : ∀ A K out K',
  add_new_results B (A, K) = Ok (out, K') →
  ∃ B', out = A ++ B' ∧ B' `sublist_of` B ∧ K' = keys B' ∪ K ∧
        Forall (λ r, ∃ k, record_key r = Some k ∧ k ∉ K) B' ∧
        NoDup (keyed B') ∧
        Forall (λ r, is_dict r → ∃ k, record_key r = Some k ∧ k ∈ K') B.
Proof.
  induction B as [|r B IH]; intros A K out K' Hrun.
  - injection Hrun as <- <-. exists []. rewrite app_nil_r.
    split_and!; try done; [set_solver | constructor].
  - rewrite add_new_results_cons in Hrun.
    destruct (is_dict r) eqn:Hd.
    + destruct (record_key r) as [k|] eqn:Hk; [|done].
      case_bool_decide as Hfresh.
      * apply IH in Hrun as (B' & -> & Hsub & -> & Hall & Hnd & Hin).
        assert (keyed (r :: B') = k :: keyed B') as Hkeyed.
        { unfold keyed. simpl. by rewrite Hk. }
        exists (r :: B'). split_and!.
        -- by rewrite <- app_assoc.
        -- by apply sublist_skip.
        -- unfold keys. rewrite Hkeyed. set_solver.
        -- constructor; [by exists k|].
           eapply Forall_impl; [exact Hall|]. intros r' (k' & ? & ?).
           exists k'. split; [done|]. set_solver.
        -- rewrite Hkeyed. constructor; [|done].
           intros Hk'. apply list_elem_of_omap in Hk' as (r' & Hr' & Hkr').
           rewrite Forall_forall in Hall.
           destruct (Hall r' Hr') as (k' & Hk'' & Hnot). set_solver.
        -- constructor; [|done]. intros _. exists k. split; [done|].
           unfold keys. set_solver.
      * apply IH in Hrun as (B' & -> & Hsub & -> & Hall & Hnd & Hin).
        exists B'. split_and!; try done.
        -- by apply sublist_cons.
        -- constructor; [|done]. intros _. exists k. split; [done|].
           set_solver.
    + apply IH in Hrun as (B' & -> & Hsub & -> & Hall & Hnd & Hin).
      exists B'. split_and!; try done.
      * by apply sublist_cons.
      * constructor; [|done]. by rewrite Hd.
Qed.

(** With every new key already in the set, the second loop changes
    nothing. *)
Lemma add_new_results_known B out K :
  Forall (λ r, is_dict r → ∃ k, record_key r = Some k ∧ k ∈ K) B →
  add_new_results B (out, K) = Ok (out, K).
Proof.
  induction 1 as [|r B Hr _ IH]; [done|].
  rewrite add_new_results_cons. destruct (is_dict r); [|done].
  destruct Hr as (k & -> & Hk); [done|].
  by rewrite bool_decide_eq_false_2 by (intros ?; done).
Qed.

Lemma merge_into_inv A B out :
  merge_into A B = Ok out →
  ∃ B', out = A ++ B' ∧ B' `sublist_of` B ∧
        Forall (λ r, ∃ k, record_key r = Some k ∧ k ∉ keys A) B' ∧
        NoDup (keyed B') ∧
        Forall (λ r, is_dict r → ∃ k, record_key r = Some k ∧ k ∈ keys out) B.
Proof.
  unfold merge_into. rewrite collect_existing_keys_spec. simpl.
  destruct (add_new_results B (A, keys A)) as [[out' K']|] eqn:Hrun; [|done].
  simpl. intros [= <-].
  apply add_new_results_spec in Hrun as (B' & -> & Hsub & -> & Hall & Hnd & Hin).
  exists B'. split_and!; try done.
  eapply Forall_impl; [exact Hin|]. intros r Hr Hd.
  destruct (Hr Hd) as (k & ? & ?). exists k. split; [done|].
  rewrite keys_app. set_solver.
Qed.

Lemma record_key_is_dict r k : record_key r = Some k → is_dict r.
Proof. by destruct r. Qed.

Lemma keys_sublist A B : A `sublist_of` B → keys A ⊆ keys B.
Proof.
  intros Hsub k Hk. unfold keys in *.
  apply elem_of_list_to_set in Hk. apply elem_of_list_to_set.
  apply list_elem_of_omap in Hk as (r & Hr & Hkr).
  apply list_elem_of_omap. exists r. split; [|done].
  by eapply elem_of_sublist.
Qed.

Lemma elem_of_keys k A : k ∈ keys A ↔ ∃ r, r ∈ A ∧ record_key r = Some k.
Proof. unfold keys, keyed. rewrite elem_of_list_to_set. apply list_elem_of_omap. Qed.




Example merge_drops_new_record :
  (merge_results store_path [ctrl_a_new] sample_fs).1 = Ok [ctrl_a_old].
Proof. reflexivity. Qed.

Lemma stored_records_store_of path σ generated_at out :
  stored_records (<[path := store_of generated_at out]> σ) path = out.
Proof. unfold stored_records. by rewrite lookup_insert_eq. Qed.

(** C7: merging the same new records a second time changes nothing, on
    lists and through the store file. *)
Theorem merge_results_idempotent A B :
  (m ← merge_into A B; merge_into m B) = merge_into A B ∧
  ∀ path σ generated_at out,
    stored_records σ path = A →
    (merge_results path B σ).1 = Ok out →
    (merge_results path B (<[path := store_of generated_at out]> σ)).1 = Ok out.
Proof.
  assert (∀ out, merge_into A B = Ok out → merge_into out B = Ok out) as Hidem.
  { intros out Hm.
    apply merge_into_inv in Hm as (B' & -> & _ & _ & _ & Hin).
    unfold merge_into. rewrite collect_existing_keys_spec. simpl.
    by rewrite add_new_results_known. }
  split.
  - destruct (merge_into A B) as [out|e] eqn:Hm; [|done]. simpl. by apply Hidem.
  - intros path σ generated_at out <- Hm.
    rewrite merge_results_spec in Hm |- *.
    rewrite stored_records_store_of. by apply Hidem.
Qed.

Lemma merge_results_idempotent_witness :
  (merge_results store_path [ctrl_a_new; plain_b]
     (<[store_path := store_of "2026-01-02 00:00:00" [ctrl_a_old; plain_b]]>
        sample_fs)).1
  = Ok [ctrl_a_old; plain_b].
Proof.
  apply (proj2 (merge_results_idempotent [ctrl_a_old] [ctrl_a_new; plain_b])
           store_path sample_fs); reflexivity.
Defined.

(** C8, as the code has it: when the records of the store have pairwise
    different keys, so have the records of the output, whatever the new
    results repeat. *)
Theorem merge_into_unique_keys A B out :
  NoDup (keyed A) → merge_into A B = Ok out → NoDup (keyed out).
Proof.
  intros HA Hm.
  apply merge_into_inv in Hm as (B' & -> & _ & Hfresh & Hnd & _).
  rewrite keyed_app. apply NoDup_app. split_and!; [done| |done].
  intros k HkA HkB. apply list_elem_of_omap in HkB as (r & Hr & Hk).
  rewrite Forall_forall in Hfresh.
  destruct (Hfresh r Hr) as (k' & Hk' & Hnot).
  apply Hnot. unfold keys. apply elem_of_list_to_set. congruence.
Qed.

Lemma merge_into_unique_keys_witness :
  NoDup (keyed [ctrl_a_old; plain_b]).
Proof.
  apply (merge_into_unique_keys [ctrl_a_old] [ctrl_a_new; plain_b; plain_b]).
  - by_compute.
  - reflexivity.
Defined.

(** C8 as stated fails: records of the store that repeat a key are all
    kept. *)
Lemma merge_into_duplicates_kept :
  ¬ (∀ A B out, merge_into A B = Ok out → NoDup (keyed out)).
Proof.
  intros H.
  specialize (H [ctrl_a_old; ctrl_a_new] [plain_b]
                [ctrl_a_old; ctrl_a_new; plain_b] eq_refl).
  apply NoDup_cons in H as [Hnotin _]. apply Hnotin. by_compute.
Qed.

End merge.

(** Runs both sides of an equation between two record constructions. *)
Ltac step_binds captured :=
  let fields := fresh "fields" in
  destruct captured as [| | | | |fields]; try reflexivity;
  unfold mbind, result_bind, Py.bind, getitem, get;
  destruct (lookup_field "vk" fields); [|reflexivity];
  repeat match goal with
         | |- context [format_hex ?w ?v] =>
             destruct (format_hex w v); try reflexivity
         | |- context [truthy ?v] =>
             destruct (truthy v); try reflexivity
         end.

Section capture_loops.

Context (e : env) (exe_path : string).

Lemma for_each_r_inv {A S} (I : S → Prop) (body : A → S → result S) l s out :
  I s →
  (∀ x s s', x ∈ l → I s → body x s = Ok s' → I s') →
  for_each_r l body s = Ok out → I out.
Proof.
  revert s. induction l as [|x l IH]; intros s Hs Hbody Hrun; simpl in Hrun.
  - by injection Hrun as <-.
  - destruct (body x s) as [s'|] eqn:Hx; [|done]. simpl in Hrun.
    apply (IH s'); [|by eauto using list_elem_of_further|done].
    eapply Hbody; [apply list_elem_of_here|done..].
Qed.

(** The shape of a record of the capture loops. *)
Lemma capture_record_shape key ctrl shift alt label captured r :
  capture_record key ctrl shift alt label captured = Ok r →
  ∃ vk_hex vk ascii unicode ascii_hex unicode_hex,
    r = JObj [
      ("key", JStr key);
      ("modifiers", JObj [
         ("ctrl", JBool ctrl);
         ("shift", JBool shift);
         ("alt", JBool alt) ]);
      ("combo", JStr label);
      ("vk", JStr vk_hex);
      ("vk_decimal", vk);
      ("ascii", ascii);
      ("unicode", unicode);
      ("ascii_hex", ascii_hex);
      ("unicode_hex", unicode_hex) ].
Proof.
  unfold capture_record. destruct captured as [| | | | |reported]; try done.
  unfold getitem at 1 2, get.
  destruct (lookup_field "vk" reported) as [vk|]; [|done].
  unfold mbind at 1, result_bind, Py.bind.
  destruct (format_hex 2 vk) as [vk_hex|]; [|done].
  unfold mbind at 1 2 3 4 5, result_bind, Py.bind.
  unfold mbind at 3, result_bind, Py.bind.
  destruct (if truthy (default JNull (lookup_field "ascii" reported)) then _
            else _) as [ascii_hex|]; [|done].
  unfold mbind at 2, result_bind, Py.bind.
  unfold mbind at 2, result_bind, Py.bind.
  destruct (if truthy (default JNull (lookup_field "unicode" reported)) then _
            else _) as [unicode_hex|]; [|done].
  intros [= <-]. by eexists _, _, _, _, _, _.
Qed.

Lemma capture_turn_inv universe key ctrl shift alt results out :
  (key, ctrl, shift, alt) ∈ universe →
  Forall (produced e exe_path universe) results →
  capture_turn e exe_path key ctrl shift alt results = Ok out →
  Forall (produced e exe_path universe) out.
Proof.
  intros Hin Hres. unfold capture_turn.
  destruct (truthy _) eqn:Ht; [|by intros [= <-]].
  destruct (capture_record _ _ _ _ _ _) as [r|] eqn:Hr; [|done].
  intros [= <-]. apply Forall_app. split; [done|].
  constructor; [|done]. by exists key, ctrl, shift, alt.
Qed.

Lemma generate_combinations_produced results :
  generate_combinations e exe_path = Ok results →
  Forall (produced e exe_path (product US_KEYS MODIFIERS)) results.
Proof.
  unfold generate_combinations.
  apply (for_each_r_inv (Forall (produced e exe_path (product US_KEYS MODIFIERS))));
    [done|].
  intros key acc acc' Hkey Hacc.
  apply for_each_r_inv; [done|].
  intros [[ctrl shift] alt] acc1 acc2 Hmod Hacc1 Hturn.
  apply (capture_turn_inv _ key ctrl shift alt acc1); [|done|].
  - by apply product_elem_of.
  - rewrite <- Hturn. unfold capture_turn, capture_record.
    generalize (capture_key_combo e key ctrl shift alt exe_path).
    intros captured. destruct (truthy captured); [|done].
    step_binds captured.
Qed.

Lemma retry_failed_combinations_produced failed results :
  retry_failed_combinations e exe_path failed = Ok results →
  Forall (produced e exe_path failed) results.
Proof.
  unfold retry_failed_combinations.
  apply for_each_r_inv; [done|].
  intros [[[key ctrl] shift] alt] acc1 acc2 Hin Hacc1 Hturn.
  apply (capture_turn_inv _ key ctrl shift alt acc1); [done..|].
  rewrite <- Hturn. unfold capture_turn, capture_record.
  generalize (capture_key_combo e key ctrl shift alt exe_path).
  intros captured. destruct (truthy captured); [|done].
  step_binds captured.
Qed.

(** The hexadecimal field computed from the value [v] found under a key. *)
Lemma hex_field_rule w (v : option json) (h : json) :
  (if truthy (default JNull v) then
     a ← Ok (default (JInt 0) v); x ← format_hex w a; mret (JStr ("0x" ++ x))
   else mret JNull) = Ok h →
  hex_rule w (default JNull v) h.
Proof.
  destruct v as [v|]; simpl.
  - destruct (truthy v) eqn:Ht.
    + destruct v as [|b|n| | |]; simpl in *; try done; intros [= <-].
      * subst b. split; [done|]. intros _. by exists 1%Z.
      * split; [simpl; congruence|]. intros _. exists n.
        split_and!; [done| |done]. intros ->. done.
    + intros [= <-]. split; [done | intros ?; congruence].
  - intros [= <-]. split; [done | intros ?; discriminate].
Qed.

Lemma capture_record_hex key ctrl shift alt label captured r :
  capture_record key ctrl shift alt label captured = Ok r →
  ∃ reported ascii_hex unicode_hex,
    captured = JObj reported ∧
    getitem r "key" = Ok (JStr key) ∧
    getitem r "ascii" = Ok (default JNull (lookup_field "ascii" reported)) ∧
    getitem r "unicode" = Ok (default JNull (lookup_field "unicode" reported)) ∧
    getitem r "ascii_hex" = Ok ascii_hex ∧
    getitem r "unicode_hex" = Ok unicode_hex ∧
    hex_rule 2 (default JNull (lookup_field "ascii" reported)) ascii_hex ∧
    hex_rule 4 (default JNull (lookup_field "unicode" reported)) unicode_hex.
Proof.
  unfold capture_record. destruct captured as [| | | | |reported]; try done.
  unfold getitem at 1 2, get.
  destruct (lookup_field "vk" reported) as [vk|]; [|done].
  unfold mbind at 1, result_bind, Py.bind.
  destruct (format_hex 2 vk) as [vk_hex|]; [|done].
  unfold mbind at 1 2 3 4 5, result_bind, Py.bind.
  pose proof (hex_field_rule 2 (lookup_field "ascii" reported)) as Ha.
  pose proof (hex_field_rule 4 (lookup_field "unicode" reported)) as Hu.
  unfold mbind, result_bind, Py.bind in Ha, Hu |- *.
  destruct (if truthy (default JNull (lookup_field "ascii" reported)) then _
            else _) as [ascii_hex|]; [|done].
  destruct (if truthy (default JNull (lookup_field "unicode" reported)) then _
            else _) as [unicode_hex|]; [|done].
  intros [= <-]. exists reported, ascii_hex, unicode_hex.
  split_and!; try reflexivity; [by apply Ha | by apply Hu].
Qed.

Lemma produced_hex_fields_ok universe r :
  produced e exe_path universe r → hex_fields_ok e exe_path r.
Proof.
  intros (key & ctrl & shift & alt & _ & _ & Hr).
  apply capture_record_hex in Hr
    as (reported & ah & uh & Hc & ? & ? & ? & ? & ? & ? & ?).
  by exists key, ctrl, shift, alt, reported, ah, uh.
Qed.


(** The label a record carries is the one of its combination: the inline
    label in the sweep, [format_combo_str] in the retry loop. *)
Lemma produced_label universe r :
  produced e exe_path universe r →
  ∃ key ctrl shift alt,
    record_key r = Some (key, ctrl, shift, alt) ∧
    getitem r "combo" = Ok (JStr (format_combo_str key ctrl shift alt)) ∧
    getitem r "combo" = Ok (JStr (inline_combo_str key ctrl shift alt)).
Proof.
  intros (key & ctrl & shift & alt & _ & _ & Hr).
  apply capture_record_shape in Hr as (? & ? & ? & ? & ? & ? & ->).
  exists key, ctrl, shift, alt. split_and!; reflexivity.
Qed.

Lemma sweep_records_labelled results :
  generate_combinations e exe_path = Ok results →
  Forall (λ r, ∃ key ctrl shift alt,
            record_key r = Some (key, ctrl, shift, alt) ∧
            getitem r "combo" = Ok (JStr (inline_combo_str key ctrl shift alt)))
    results.
Proof.
  intros Hrun. apply generate_combinations_produced in Hrun.
  eapply Forall_impl; [exact Hrun|]. intros r Hr.
  apply produced_label in Hr as (key & c & s & a & ? & _ & ?). eauto 10.
Qed.

Lemma retry_records_labelled failed results :
  retry_failed_combinations e exe_path failed = Ok results →
  Forall (λ r, ∃ key ctrl shift alt,
            record_key r = Some (key, ctrl, shift, alt) ∧
            getitem r "combo" = Ok (JStr (format_combo_str key ctrl shift alt)))
    results.
Proof.
  intros Hrun. apply retry_failed_combinations_produced in Hrun.
  eapply Forall_impl; [exact Hrun|]. intros r Hr.
  apply produced_label in Hr as (key & c & s & a & ? & ? & _). eauto 10.
Qed.

End capture_loops.

(** The plain "a" of the sample helper reports the character 0: its record
    carries [ascii] = 0 and a null [ascii_hex]. *)
Example sample_sweep :
  generate_combinations sample_env "capture_keys.exe" =
  Ok [ JObj [ ("key", JStr "a");
              ("modifiers", JObj [ ("ctrl", JBool false);
                                   ("shift", JBool false);
                                   ("alt", JBool false) ]);
              ("combo", JStr "A");
              ("vk", JStr "0x41");
              ("vk_decimal", JInt 65);
              ("ascii", JInt 0);
              ("unicode", JInt 0);
              ("ascii_hex", JNull);
              ("unicode_hex", JNull) ];
       store_record "a" true false false 65 1 1 ].
Proof. vm_compute. reflexivity. Qed.


Section order.

Lemma string_ltb_asym s t : String.ltb s t = true → String.ltb t s = false.
Proof.
  unfold String.ltb. rewrite (String.compare_antisym t s).
  by destruct (String.compare s t).
Qed.

Lemma string_ltb_total s t :
  s ≠ t → String.ltb t s = false → String.ltb s t = true.
Proof.
  unfold String.ltb. rewrite (String.compare_antisym t s).
  destruct (String.compare s t) eqn:Hc; try done.
  intros Hne. by apply String.compare_eq_iff in Hc.
Qed.

Lemma string_ltb_trans s t u :
  String.ltb s t = true → String.ltb t u = true → String.ltb s u = true.
Proof.
  unfold String.ltb.
  destruct (String.compare s t) eqn:Hst; try done.
  destruct (String.compare t u) eqn:Htu; try done. intros _ _.
  apply String_as_OT.cmp_lt in Hst, Htu.
  pose proof (String_as_OT.lt_trans _ _ _ Hst Htu) as Hsu.
  apply String_as_OT.cmp_lt in Hsu. unfold String_as_OT.cmp in Hsu.
  by rewrite Hsu.
Qed.

Lemma atom_lt_asym a b : atom_lt a b = Ok true → atom_lt b a = Ok false.
Proof.
  destruct a, b; simpl; try done; intros [= H]; f_equal.
  - apply Z.ltb_lt in H. apply Z.ltb_ge. lia.
  - by apply string_ltb_asym.
Qed.

Lemma atom_lt_total a b :
  a ≠ b → atom_lt b a = Ok false → atom_lt a b = Ok true.
Proof.
  destruct a, b; simpl; try done; intros Hne [= H]; f_equal.
  - apply Z.ltb_ge in H. apply Z.ltb_lt.
    assert (n ≠ n0) by congruence. lia.
  - apply string_ltb_total; congruence.
Qed.

Lemma atom_lt_trans a b c :
  atom_lt a b = Ok true → atom_lt b c = Ok true → atom_lt a c = Ok true.
Proof.
  destruct a, b, c; simpl; try done; intros [= H1] [= H2]; f_equal.
  - apply Z.ltb_lt in H1, H2. apply Z.ltb_lt. lia.
  - by eapply string_ltb_trans.
Qed.

Lemma atom_lt_irrefl a : atom_lt a a ≠ Ok true.
Proof.
  intros H. pose proof (atom_lt_asym _ _ H). congruence.
Qed.

Lemma tuple_lt_asym t : ∀ u, tuple_lt t u = Ok true → tuple_lt u t = Ok false.
Proof.
  induction t as [|a t IH]; intros [|b u]; simpl; try done.
  destruct (decide (a = b)) as [->|Hne].
  - rewrite decide_True by done. apply IH.
  - rewrite decide_False by done. apply atom_lt_asym.
Qed.

(** "Not after" is transitive on tuples. *)
Lemma tuple_le_trans t : ∀ u v,
  tuple_lt u t = Ok false → tuple_lt v u = Ok false → tuple_lt v t = Ok false.
Proof.
  induction t as [|a t IH]; intros u v Hut Hvu.
  - by destruct v.
  - destruct u as [|b u]; [done|]. destruct v as [|c v]; [done|].
    simpl in *.
    destruct (decide (b = a)) as [Hba|Hba], (decide (c = b)) as [Hcb|Hcb];
      subst.
    + rewrite decide_True by done. by eapply IH.
    + by rewrite decide_False by done.
    + by rewrite decide_False by done.
    + assert (atom_lt a b = Ok true) as Hab by by apply atom_lt_total.
      assert (atom_lt b c = Ok true) as Hbc by by apply atom_lt_total.
      pose proof (atom_lt_trans _ _ _ Hab Hbc) as Hac.
      destruct (decide (c = a)) as [->|Hca].
      * by apply atom_lt_irrefl in Hac.
      * by apply atom_lt_asym.
Qed.

Context {A : Type} (lt : A → A → bool).

Lemma insert_by_perm x l : insert_by lt x l ≡ₚ x :: l.
Proof.
  induction l as [|y l IH]; simpl; [done|].
  destruct (lt y x); [|done]. rewrite IH. apply Permutation_swap.
Qed.

Lemma stable_sort_perm l : stable_sort lt l ≡ₚ l.
Proof.
  induction l as [|x l IH]; [done|].
  change (stable_sort lt (x :: l)) with (insert_by lt x (stable_sort lt l)).
  by rewrite insert_by_perm, IH.
Qed.

(** Stability: items that the comparison does not tell apart keep their
    order. *)
Lemma insert_by_stable (P : A → Prop) `{!∀ x, Decision (P x)} x l :
  (∀ y, P x → P y → lt y x = false) →
  filter P (insert_by lt x l) = filter P (x :: l).
Proof.
  intros Heq. induction l as [|y l IH]; simpl; [done|].
  destruct (lt y x) eqn:Hyx; [|done].
  rewrite (filter_cons P y), IH, !(filter_cons P x), (filter_cons P y).
  destruct (decide (P x)) as [Hx|Hx], (decide (P y)) as [Hy|Hy]; try done.
  rewrite Heq in Hyx; done.
Qed.

Lemma stable_sort_stable (P : A → Prop) `{!∀ x, Decision (P x)} l :
  (∀ x y, P x → P y → lt y x = false) →
  filter P (stable_sort lt l) = filter P l.
Proof.
  intros Heq. induction l as [|x l IH]; [done|].
  change (stable_sort lt (x :: l)) with (insert_by lt x (stable_sort lt l)).
  rewrite insert_by_stable by eauto. by rewrite !filter_cons, IH.
Qed.

(** Sortedness, for a comparison that is a strict weak order on the
    members of a domain [D]. *)
Context (D : A → Prop).
Context (Hasym : ∀ x y, D x → D y → lt x y = true → lt y x = false).
Context (Htrans : ∀ x y z, D x → D y → D z →
                    lt y x = false → lt z y = false → lt z x = false).

Lemma insert_by_sorted x l :
  D x → Forall D l →
  StronglySorted (λ x y, lt y x = false) l →
  StronglySorted (λ x y, lt y x = false) (insert_by lt x l).
Proof.
  intros Hx HD Hs. induction Hs as [|y l Hs IH Hy]; simpl.
  - repeat constructor.
  - apply Forall_cons in HD as [Dy HD].
    destruct (lt y x) eqn:Hyx.
    + constructor; [by apply IH|].
      rewrite insert_by_perm. constructor; [|done]. by apply Hasym.
    + constructor; [by constructor|]. constructor; [done|].
      rewrite Forall_forall in Hy, HD |- *. intros z Hz.
      apply (Htrans x y z); auto.
Qed.

Lemma stable_sort_sorted l :
  Forall D l → StronglySorted (λ x y, lt y x = false) (stable_sort lt l).
Proof.
  induction 1 as [|x l Hx HD IH]; [constructor|].
  change (stable_sort lt (x :: l)) with (insert_by lt x (stable_sort lt l)).
  apply insert_by_sorted; [done| |done]. by rewrite stable_sort_perm.
Qed.

End order.

Section sorted.

Context {A : Type} (key : A → result (list atom)).

Lemma keys_of_spec l ks :
  keys_of key l = Ok ks →
  snd <$> ks = l ∧ Forall (λ p, key p.2 = Ok p.1) ks.
Proof.
  revert ks. induction l as [|x l IH]; intros ks; simpl.
  - intros [= <-]. by split.
  - destruct (key x) as [k|] eqn:Hk; [|done]. simpl.
    destruct (keys_of key l) as [ks'|]; [|done]. simpl. intros [= <-].
    destruct (IH ks' eq_refl) as [<- Hall]. split; [done|]. by constructor.
Qed.

Lemma comparable_spec (ks : list (list atom)) t u :
  comparable ks = true → t ∈ ks → u ∈ ks → ∃ b, tuple_lt t u = Ok b.
Proof.
  unfold comparable. rewrite forallb_forall. intros Hall Ht Hu.
  apply list_elem_of_In in Ht, Hu.
  specialize (Hall t Ht). rewrite forallb_forall in Hall.
  specialize (Hall u Hu). destruct (tuple_lt t u) as [b|]; [by exists b|done].
Qed.

(** [sorted] returns a rearrangement of its argument in which no item
    comes after a later one. *)
Lemma sorted_spec l recs :
  sorted key l = Ok recs →
  recs ≡ₚ l ∧ StronglySorted (key_le key) recs.
Proof.
  unfold sorted. destruct (keys_of key l) as [ks|] eqn:Hks; [|done]. simpl.
  destruct (comparable (fst <$> ks)) eqn:Hcomp; [|done]. intros [= <-].
  apply keys_of_spec in Hks as [<- Hkeys].
  set (lt := λ p q : list atom * A, tuple_ltb p.1 q.1).
  split; [by rewrite (stable_sort_perm lt ks)|].
  assert (∀ p q, p ∈ ks → q ∈ ks → ∃ b, tuple_lt p.1 q.1 = Ok b) as Hok.
  { intros p q Hp Hq.
    apply (comparable_spec (fst <$> ks)); [done|by apply list_elem_of_fmap_2..]. }
  assert (StronglySorted (λ p q, lt q p = false) (stable_sort lt ks)) as Hs.
  { apply (stable_sort_sorted lt (λ p, p ∈ ks)).
    - intros p q _ _. unfold lt, tuple_ltb.
      destruct (tuple_lt p.1 q.1) as [[]|] eqn:Hpq; try done. intros _.
      by rewrite (tuple_lt_asym _ _ Hpq).
    - intros p q r Hp Hq Hr. unfold lt, tuple_ltb.
      destruct (Hok q p Hq Hp) as [b1 H1], (Hok r q Hr Hq) as [b2 H2].
      rewrite H1, H2. intros -> ->.
      by rewrite (tuple_le_trans _ _ _ H1 H2).
    - by apply Forall_forall. }
  assert (Forall (λ p, p ∈ ks) (stable_sort lt ks)) as Hin.
  { apply Forall_forall. intros p Hp. by rewrite (stable_sort_perm lt ks) in Hp. }
  revert Hs Hin. generalize (stable_sort lt ks). intros sorted_ks Hs.
  induction Hs as [|p rest Hs IH Hp]; intros Hin; simpl; [constructor|].
  apply Forall_cons in Hin as [Hpin Hin]. constructor; [by apply IH|].
  rewrite Forall_fmap. rewrite Forall_forall in Hp, Hin, Hkeys |- *.
  intros q Hq. simpl. exists p.1, q.1. split_and!; [by auto..|].
  specialize (Hp q Hq). unfold lt, tuple_ltb in Hp.
  destruct (Hok q p (Hin q Hq) Hpin) as [b Hb]. rewrite Hb in Hp |- *.
  by subst.
Qed.

Lemma tuple_lt_irrefl t : tuple_lt t t = Ok false.
Proof.
  induction t as [|a t IH]; simpl; [done|]. by rewrite decide_True.
Qed.

(** [sorted] is stable: the items under one key come out in the order they
    went in. *)
Lemma sorted_stable l recs k :
  sorted key l = Ok recs →
  filter (λ x, key x = Ok k) recs = filter (λ x, key x = Ok k) l.
Proof.
  unfold sorted. destruct (keys_of key l) as [ks|] eqn:Hks; [|done]. simpl.
  destruct (comparable (fst <$> ks)); [|done]. intros [= <-].
  apply keys_of_spec in Hks as [<- Hkeys].
  set (lt := λ p q : list atom * A, tuple_ltb p.1 q.1).
  assert (∀ ps, Forall (λ p, key p.2 = Ok p.1) ps →
            filter (λ x, key x = Ok k) (snd <$> ps)
            = snd <$> filter (λ p, p.1 = k) ps) as Hfilter.
  { induction 1 as [|p ps Hp _ IH]; [done|].
    rewrite fmap_cons, !filter_cons, IH, Hp.
    destruct (decide (Ok p.1 = Ok k)) as [[= ->]|Hne].
    - by rewrite decide_True.
    - rewrite decide_False; [done|congruence]. }
  rewrite !Hfilter; [| done |].
  - f_equal. apply stable_sort_stable. intros p q Hp Hq.
    unfold lt, tuple_ltb. by rewrite Hp, Hq, tuple_lt_irrefl.
  - apply Forall_forall. intros p Hp.
    rewrite (stable_sort_perm lt ks) in Hp.
    by apply (proj1 (Forall_forall _ _) Hkeys).
Qed.

(** Keys of one shape are comparable, so the sort succeeds on them. *)
Lemma same_shape_comparable t : ∀ u,
  shape t = shape u → ∃ b, tuple_lt t u = Ok b.
Proof.
  induction t as [|a t IH]; intros [|b u]; simpl; try done; eauto.
  intros [= Hk Hs]. destruct (decide (a = b)) as [->|Hne]; [by apply IH|].
  destruct a, b; simpl in *; try done; eauto.
Qed.

Lemma sorted_total l sh :
  Forall (λ x, ∃ k, key x = Ok k ∧ shape k = sh) l →
  ∃ recs, sorted key l = Ok recs.
Proof.
  intros Hl.
  assert (∃ ks, keys_of key l = Ok ks ∧ Forall (λ p, shape p.1 = sh) ks)
    as (ks & Hks & Hsh).
  { induction Hl as [|x l (k & Hk & Hshape) _ (ks & Hks & Hsh)]; simpl.
    - by exists [].
    - rewrite Hk, Hks. simpl. exists ((k, x) :: ks). split; [done|].
      by constructor. }
  unfold sorted. rewrite Hks. simpl.
  assert (comparable (fst <$> ks) = true) as ->; [|by eauto].
  unfold comparable. apply forallb_forall. intros t Ht.
  apply forallb_forall. intros u Hu.
  apply list_elem_of_In, list_elem_of_fmap in Ht as (p & -> & Hp).
  apply list_elem_of_In, list_elem_of_fmap in Hu as (q & -> & Hq).
  rewrite Forall_forall in Hsh.
  destruct (same_shape_comparable p.1 q.1) as [b ->]; [|done].
  by rewrite (Hsh p Hp), (Hsh q Hq).
Qed.

End sorted.

Section runs.

(** ** Results that stay within [Exception] *)

Lemma tame_Ok {A} (a : A) : tame (Ok a).
Proof. by intros x. Qed.

Lemma tame_Raise {A} x : is_Exception x = true → tame (@Raise A x).
Proof. by intros Hx y [= <-]. Qed.

Lemma tame_bind {A B} (m : result A) (k : A → result B) :
  tame m → (∀ a, tame (k a)) → tame (m ≫= k).
Proof.
  intros Hm Hk. destruct m as [a|x]; simpl; [apply Hk|].
  intros y [= <-]. by apply Hm.
Qed.

Lemma tame_for_each_r {A S} (l : list A) (body : A → S → result S) s :
  (∀ x s, tame (body x s)) → tame (for_each_r l body s).
Proof.
  intros Hbody. revert s. induction l as [|x l IH]; intros s; simpl.
  - apply tame_Ok.
  - apply tame_bind; [apply Hbody | apply IH].
Qed.

Lemma tame_getitem v k : tame (getitem v k).
Proof.
  destruct v; simpl; try by apply tame_Raise.
  destruct (lookup_field k fields); [apply tame_Ok | by apply tame_Raise].
Qed.

Lemma tame_get v k d : tame (get v k d).
Proof. destruct v; simpl; (apply tame_Ok || by apply tame_Raise). Qed.

Lemma tame_atom_of v : tame (atom_of v).
Proof. destruct v; simpl; (apply tame_Ok || by apply tame_Raise). Qed.

Lemma tame_iterate v : tame (iterate v).
Proof. destruct v; simpl; (apply tame_Ok || by apply tame_Raise). Qed.

Lemma tame_format_hex w v : tame (format_hex w v).
Proof. destruct v; simpl; (apply tame_Ok || by apply tame_Raise). Qed.

Lemma tame_format_width w v : tame (format_width w v).
Proof. destruct v; simpl; (apply tame_Ok || by apply tame_Raise). Qed.

Lemma tame_as_str v : tame (as_str v).
Proof. destruct v; simpl; (apply tame_Ok || by apply tame_Raise). Qed.

Lemma tame_keys_of {A} (key : A → result (list atom)) l :
  (∀ x, tame (key x)) → tame (keys_of key l).
Proof.
  intros Hkey. induction l as [|x l IH]; simpl; [apply tame_Ok|].
  apply tame_bind; [apply Hkey|]. intros k.
  apply tame_bind; [apply IH|]. intros ks. apply tame_Ok.
Qed.

Lemma tame_sorted {A} (key : A → result (list atom)) l :
  (∀ x, tame (key x)) → tame (sorted key l).
Proof.
  intros Hkey. unfold sorted. apply tame_bind; [by apply tame_keys_of|].
  intros ks. destruct (comparable _); [apply tame_Ok | by apply tame_Raise].
Qed.

End runs.

(** Decomposes a goal [tame _] along the binds and branches of the
    computation. *)
Ltac solve_tame :=
  repeat first
    [ apply tame_Ok
    | apply tame_getitem | apply tame_get | apply tame_atom_of
    | apply tame_format_hex | apply tame_format_width | apply tame_as_str
    | apply tame_iterate
    | apply tame_bind; [|intros ?]
    | match goal with
      | |- tame (if ?b then _ else _) => destruct b
      | |- tame (match ?v with _ => _ end) => destruct v
      | |- tame (let 'pair _ _ := ?p in _) => destruct p
      end ].

Section runs_sweep.

Lemma sweep_sort_key_tame x : tame (GenerateKeyCombos.sort_key x).
Proof. unfold GenerateKeyCombos.sort_key. solve_tame. Qed.

Lemma retry_sort_key_tame x : tame (RetryFailedCombos.sort_key x).
Proof. unfold RetryFailedCombos.sort_key. solve_tame. Qed.

Lemma capture_record_tame key ctrl shift alt label captured :
  tame (capture_record key ctrl shift alt label captured).
Proof. unfold capture_record. solve_tame. Qed.

Lemma capture_turn_tame e exe_path key ctrl shift alt results :
  tame (capture_turn e exe_path key ctrl shift alt results).
Proof.
  unfold capture_turn. destruct (truthy _); [|apply tame_Ok].
  apply tame_bind; [apply capture_record_tame|]. intros r. apply tame_Ok.
Qed.

End runs_sweep.

Section monad.

Lemma bind_run {A B} (m : M A) (k : A → M B) σ :
  (m ≫= k) σ = match m σ with
               | (Ok a, σ') => k a σ'
               | (Raise x, σ') => (Raise x, σ')
               end.
Proof. reflexivity. Qed.

Lemma for_each_r_ext {A S} (l : list A) (f g : A → S → result S) s :
  (∀ x s, f x s = g x s) → for_each_r l f s = for_each_r l g s.
Proof.
  intros Hfg. revert s. induction l as [|x l IH]; intros s; simpl; [done|].
  rewrite Hfg. destruct (g x s); simpl; [apply IH | done].
Qed.

Lemma calm_ret {A} p (a : A) : calm p (mret a).
Proof. split; intros σ; [done | apply tame_Ok]. Qed.

Lemma calm_lift {A} p (r : result A) : tame r → calm p (lift r).
Proof. by split; intros σ. Qed.

Lemma calm_bind {A B} p (m : M A) (k : A → M B) :
  calm p m → (∀ a, calm p (k a)) → calm p (m ≫= k).
Proof.
  intros [Hk Ht] Hcont. split; intros σ; rewrite bind_run;
    specialize (Hk σ); specialize (Ht σ);
    destruct (m σ) as [[a|x] σ']; simpl in *.
  - rewrite <- Hk. apply Hcont.
  - exact Hk.
  - apply Hcont.
  - apply tame_Raise. by apply Ht.
Qed.

Lemma calm_write p q t : p ≠ q → calm p (write q t).
Proof.
  intros Hne. split; intros σ; unfold write.
  - destruct (σ !! q) as [[]|]; simpl; by rewrite lookup_insert_ne.
  - destruct (σ !! q) as [[]|]; apply tame_Ok.
Qed.

Lemma calm_open_w p q : p ≠ q → calm p (open_w q).
Proof.
  intros Hne. split; intros σ; unfold open_w; simpl.
  - by rewrite lookup_insert_ne.
  - apply tame_Ok.
Qed.

Lemma calm_for_each {A S} p (l : list A) (body : A → S → M S) s :
  (∀ x s, calm p (body x s)) → calm p (for_each l body s).
Proof.
  intros Hbody. revert s. induction l as [|x l IH]; intros s; simpl.
  - apply calm_ret.
  - apply calm_bind; [apply Hbody | apply IH].
Qed.

End monad.

(** Decomposes a goal [calm p _] along the binds and branches of the
    computation; [p] must differ from the files written. *)
Ltac solve_calm :=
  repeat first
    [ apply calm_ret
    | apply calm_write; done
    | apply calm_open_w; done
    | apply calm_lift; solve_tame
    | apply calm_bind; [|intros ?]
    | match goal with
      | |- calm _ (if ?b then _ else _) => destruct b
      | |- calm _ (match ?v with _ => _ end) => destruct v
      end ].

Section reports.

Lemma sweep_write_record_calm p txt_file combo current_mod :
  p ≠ txt_file → calm p (GenerateKeyCombos.write_record txt_file combo current_mod).
Proof. intros Hne. unfold GenerateKeyCombos.write_record. solve_calm. Qed.

Lemma sweep_write_report_calm p e txt_file results :
  p ≠ txt_file → calm p (GenerateKeyCombos.write_report e txt_file results).
Proof.
  intros Hne. unfold GenerateKeyCombos.write_report.
  repeat (apply calm_bind; [|intros ?]);
    try (by apply calm_write); try (by apply calm_open_w);
    try apply calm_ret.
  apply calm_for_each. intros. by apply sweep_write_record_calm.
Qed.

Lemma retry_write_record_calm p txt_path combo :
  p ≠ txt_path → calm p (RetryFailedCombos.write_record txt_path combo).
Proof. intros Hne. unfold RetryFailedCombos.write_record. solve_calm. Qed.

Lemma retry_write_report_calm p txt_path generated_at all_results combinations :
  p ≠ txt_path →
  calm p (RetryFailedCombos.write_report txt_path generated_at all_results
            combinations).
Proof.
  intros Hne. unfold RetryFailedCombos.write_report.
  repeat (apply calm_bind; [|intros ?]);
    try (by apply calm_write); try (by apply calm_open_w);
    try apply calm_ret.
  apply calm_for_each. intros. by apply retry_write_record_calm.
Qed.

End reports.

Section orchestrators.

Lemma find_capture_keys_exe_spec σ :
  find_capture_keys_exe σ = (Ok (found_exe σ), σ).
Proof.
  unfold find_capture_keys_exe, found_exe.
  rewrite bind_run. unfold path_exists at 1.
  destruct (bool_decide (is_Some (σ !! "zig-out/bin/capture_keys.exe")));
    [reflexivity|].
  rewrite bind_run. unfold path_exists at 1.
  destruct (bool_decide (is_Some (σ !! "capture_keys.exe"))); [reflexivity|].
  rewrite bind_run. unfold path_exists at 1.
  destruct (bool_decide (is_Some (σ !! "scripts/capture_keys.exe")));
    reflexivity.
Qed.

Lemma generate_combinations_unfold e exe_path :
  generate_combinations e exe_path =
  for_each_r US_KEYS (λ key results,
    for_each_r MODIFIERS (λ m results,
      capture_turn e exe_path key m.1.1 m.1.2 m.2 results) results) [].
Proof.
  unfold generate_combinations. apply for_each_r_ext. intros key results.
  apply for_each_r_ext. intros [[ctrl shift] alt] acc.
  unfold capture_turn, capture_record. cbn [fst snd].
  generalize (capture_key_combo e key ctrl shift alt exe_path).
  intros captured. destruct (truthy captured); [|reflexivity].
  symmetry. step_binds captured.
Qed.

Lemma retry_failed_combinations_unfold e exe_path failed :
  retry_failed_combinations e exe_path failed =
  for_each_r failed (λ c results,
    capture_turn e exe_path c.1.1.1 c.1.1.2 c.1.2 c.2 results) [].
Proof.
  unfold retry_failed_combinations. apply for_each_r_ext.
  intros [[[key ctrl] shift] alt] acc.
  unfold capture_turn, capture_record. cbn [fst snd].
  generalize (capture_key_combo e key ctrl shift alt exe_path).
  intros captured. destruct (truthy captured); [|reflexivity].
  symmetry. step_binds captured.
Qed.

Lemma generate_combinations_tame e exe_path :
  tame (generate_combinations e exe_path).
Proof.
  rewrite generate_combinations_unfold.
  apply tame_for_each_r. intros key results.
  apply tame_for_each_r. intros m acc. apply capture_turn_tame.
Qed.

Lemma retry_failed_combinations_tame e exe_path failed :
  tame (retry_failed_combinations e exe_path failed).
Proof.
  rewrite retry_failed_combinations_unfold.
  apply tame_for_each_r. intros c acc. apply capture_turn_tame.
Qed.

(** The run of the sweep, phase by phase. *)
Lemma sweep_main_unfold e σ :
  GenerateKeyCombos.main e σ =
  match found_exe σ with
  | None => (Ok 1%Z, σ)
  | Some exe_path =>
    match stdin e with
    | CtrlC => (Ok 1%Z, σ)
    | Eof => (Raise EOFError, σ)
    | Line _ =>
      match generate_combinations e exe_path with
      | Raise x => (Raise x, σ)
      | Ok results =>
        match sorted GenerateKeyCombos.sort_key results with
        | Raise x => (Raise x, σ)
        | Ok recs =>
            (GenerateKeyCombos.write_report e "key_combinations.txt" recs;;
             mret 0%Z)
              (<[store_path := store_of (now e) recs]> σ)
        end
      end
    end
  end.
Proof.
  unfold GenerateKeyCombos.main. rewrite bind_run, find_capture_keys_exe_spec.
  destruct (found_exe σ) as [exe_path|]; [|reflexivity].
  rewrite bind_run. unfold try_except, input.
  destruct (stdin e); reflexivity.
Qed.

Lemma load_existing_combinations_spec path σ :
  load_existing_combinations path σ = (Ok (loaded_keys σ path), σ).
Proof.
  assert (∃ s, load_existing_combinations path σ = (Ok s, σ)) as [s Hs].
  { unfold load_existing_combinations. rewrite bind_run.
    unfold path_exists at 1.
    destruct (bool_decide (is_Some (σ !! path))); cbn [negb];
      [|eexists; reflexivity].
    unfold try_except. rewrite bind_run. unfold json_load.
    destruct (σ !! path) as [[data|t]|]; [|eexists; reflexivity..].
    rewrite bind_run. unfold lift at 1.
    match goal with
    | |- context [match ?r with Ok _ => _ | Raise _ => _ end] =>
        assert (tame r) as Htame by solve_tame; destruct r as [items|x]
    end.
    - unfold lift.
      match goal with
      | |- context [for_each_r items ?body ∅] =>
          assert (tame (for_each_r items body ∅)) as Hloop
            by (apply tame_for_each_r; intros; solve_tame);
          destruct (for_each_r items body ∅) as [s|x]
      end.
      + eexists; reflexivity.
      + rewrite (Hloop x eq_refl). eexists; reflexivity.
    - rewrite (Htame x eq_refl). eexists; reflexivity. }
  unfold loaded_keys. by rewrite Hs.
Qed.

(** The run of the retry tool, phase by phase. *)
Lemma retry_main_unfold e σ :
  RetryFailedCombos.main e σ =
  match found_exe σ with
  | None => (Raise (SystemExit 1), σ)
  | Some exe_path =>
    match find_failed_combinations (loaded_keys σ store_path) with
    | [] => (Ok 0%Z, σ)
    | (_ :: _) as failed =>
      match stdin e with
      | CtrlC => (Raise KeyboardInterrupt, σ)
      | Eof => (Raise EOFError, σ)
      | Line response =>
        if negb (String.eqb (lower (strip response)) "y") then (Ok 0%Z, σ)
        else
        match retry_failed_combinations e exe_path failed with
        | Raise x => (Raise x, σ)
        | Ok [] => (Ok 0%Z, σ)
        | Ok ((_ :: _) as new_results) =>
          match merge_into (stored_records σ store_path) new_results with
          | Raise x => (Raise x, σ)
          | Ok all_results =>
            match sorted RetryFailedCombos.sort_key all_results with
            | Raise x => (Raise x, σ)
            | Ok recs =>
                (RetryFailedCombos.write_report "key_combinations.txt" (now e)
                   all_results recs;;
                 mret 0%Z)
                  (<[store_path := JsonFile (JObj [
                       ("generated_at", JStr (now e));
                       ("total_combinations",
                        JInt (Z.of_nat (length all_results)));
                       ("combinations", JArr recs) ])]> σ)
            end
          end
        end
      end
    end
  end.
Proof.
  unfold RetryFailedCombos.main. rewrite bind_run, find_capture_keys_exe_spec.
  destruct (found_exe σ) as [exe_path|]; [|reflexivity].
  rewrite bind_run.
  rewrite (load_existing_combinations_spec "key_combinations.json" σ).
  change "key_combinations.json" with store_path.
  destruct (find_failed_combinations (loaded_keys σ store_path))
    as [|c failed]; [reflexivity|].
  rewrite bind_run. unfold input.
  destruct (stdin e) as [response| |]; try reflexivity.
  unfold mret at 1, M_ret at 1.
  destruct (negb (String.eqb (lower (strip response)) "y")); [reflexivity|].
  rewrite bind_run. unfold lift at 1.
  destruct (retry_failed_combinations e exe_path (c :: failed))
    as [[|r new_results]|]; try reflexivity.
  cbv beta iota. rewrite bind_run, merge_results_spec.
  destruct (merge_into (stored_records σ store_path) (r :: new_results))
    as [all_results|]; [|reflexivity].
  rewrite bind_run. unfold lift at 1.
  destruct (sorted RetryFailedCombos.sort_key all_results) as [recs|];
    reflexivity.
Qed.

End orchestrators.

Section exit_codes.

Lemma sys_exit_tame r c : tame r → sys_exit r = Exit c → r = Ok c.
Proof.
  destruct r as [c'|x]; simpl; [by intros _ [= ->]|].
  intros Ht. specialize (Ht x eq_refl). by destruct x.
Qed.

Lemma raise_no_exit {A} x (σ : fs) c (r : result A) :
  r = Raise x → tame r → sys_exit (Raise x) = Exit c → False.
Proof. intros -> Ht. specialize (Ht x eq_refl). by destruct x. Qed.

Lemma calm_then_zero {A} p (m : M A) σ : calm p m → tame ((m;; mret 0%Z) σ).1.
Proof.
  intros [_ Ht]. rewrite bind_run. specialize (Ht σ).
  destruct (m σ) as [[a|x] σ']; simpl in *; [apply tame_Ok|].
  apply tame_Raise. by apply Ht.
Qed.

Lemma calm_then_zero_code {A} p (m : M A) σ c :
  calm p m → sys_exit ((m;; mret 0%Z) σ).1 = Exit c → c = 0%Z.
Proof.
  intros Hm Hc. apply sys_exit_tame in Hc; [|by eapply calm_then_zero].
  rewrite bind_run in Hc. destruct (m σ) as [[a|x] σ']; simpl in Hc; congruence.
Qed.

(** The exit code of the sweep, case by case. *)
Lemma sweep_exit_code e σ c :
  sys_exit (GenerateKeyCombos.main e σ).1 = Exit c →
  (c = 1%Z ∧ (found_exe σ = None ∨ stdin e = CtrlC)) ∨
  (c = 0%Z ∧ ∃ exe_path response,
     found_exe σ = Some exe_path ∧ stdin e = Line response).
Proof.
  rewrite sweep_main_unfold.
  destruct (found_exe σ) as [exe_path|]; [|intros [= <-]; auto].
  destruct (stdin e) as [response| |]; [|intros [= <-]; auto|done].
  pose proof (generate_combinations_tame e exe_path) as Hg.
  destruct (generate_combinations e exe_path) as [results|x].
  2:{ intros Hc. by apply (raise_no_exit x σ c _ eq_refl Hg) in Hc. }
  pose proof (tame_sorted GenerateKeyCombos.sort_key results sweep_sort_key_tame)
    as Hs.
  destruct (sorted GenerateKeyCombos.sort_key results) as [recs|x].
  2:{ intros Hc. by apply (raise_no_exit x σ c _ eq_refl Hs) in Hc. }
  intros Hc. right. split; [|by eauto].
  eapply (calm_then_zero_code store_path); [|exact Hc].
  by apply sweep_write_report_calm.
Qed.

(** The exit code of the retry tool, case by case. *)
Lemma retry_exit_code e σ c :
  sys_exit (RetryFailedCombos.main e σ).1 = Exit c →
  (c = 1%Z ∧ found_exe σ = None) ∨ (c = 0%Z ∧ is_Some (found_exe σ)).
Proof.
  rewrite retry_main_unfold.
  destruct (found_exe σ) as [exe_path|]; [|intros [= <-]; auto].
  intros Hc. right. split; [|done]. revert Hc.
  destruct (find_failed_combinations _) as [|c0 failed]; [by intros [= <-]|].
  destruct (stdin e) as [response| |]; [|done..].
  destruct (negb _); [by intros [= <-]|].
  pose proof (retry_failed_combinations_tame e exe_path (c0 :: failed)) as Hr.
  destruct (retry_failed_combinations e exe_path (c0 :: failed))
    as [[|r new_results]|x]; [by intros [= <-]| |].
  2:{ intros Hc. by apply (raise_no_exit x σ c _ eq_refl Hr) in Hc. }
  assert (tame (merge_into (stored_records σ store_path) (r :: new_results)))
    as Hm.
  { unfold merge_into, collect_existing_keys, add_new_results, key_tuple.
    apply tame_bind; [apply tame_for_each_r; intros; solve_tame|].
    intros K. apply tame_bind; [apply tame_for_each_r; intros; solve_tame|].
    intros [out K']. apply tame_Ok. }
  destruct (merge_into _ _) as [all_results|x].
  2:{ intros Hc. by apply (raise_no_exit x σ c _ eq_refl Hm) in Hc. }
  pose proof (tame_sorted RetryFailedCombos.sort_key all_results
                retry_sort_key_tame) as Hs.
  destruct (sorted RetryFailedCombos.sort_key all_results) as [recs|x].
  2:{ intros Hc. by apply (raise_no_exit x σ c _ eq_refl Hs) in Hc. }
  apply (calm_then_zero_code store_path).
  by apply retry_write_report_calm.
Qed.




Example sweep_interrupt_exits_with_1 :
  sys_exit (GenerateKeyCombos.main interrupted_env installed_fs).1 = Exit 1.
Proof. reflexivity. Qed.

Example retry_interrupt_is_uncaught :
  sys_exit (RetryFailedCombos.main interrupted_env installed_fs).1
  = Uncaught KeyboardInterrupt.
Proof. vm_compute. reflexivity. Qed.

End exit_codes.

Section stores.

Lemma calm_then_keeps {A} p (m : M A) σ :
  calm p m → ((m;; mret 0%Z) σ).2 !! p = σ !! p.
Proof.
  intros [Hk _]. rewrite bind_run. specialize (Hk σ).
  by destruct (m σ) as [[a|x] σ'].
Qed.

Lemma produced_keys e exe_path universe r :
  produced e exe_path universe r →
  ∃ key ctrl shift alt,
    (key, ctrl, shift, alt) ∈ universe ∧
    record_key r = Some (key, ctrl, shift, alt) ∧
    GenerateKeyCombos.sort_key r
    = Ok [AInt (Z.b2z ctrl); AInt (Z.b2z shift); AInt (Z.b2z alt); AStr key] ∧
    RetryFailedCombos.sort_key r
    = Ok [AStr key; AInt (Z.b2z ctrl); AInt (Z.b2z shift); AInt (Z.b2z alt)].
Proof.
  intros (key & ctrl & shift & alt & Hin & _ & Hr).
  apply capture_record_shape in Hr as (? & ? & ? & ? & ? & ? & ->).
  exists key, ctrl, shift, alt. split_and!; [done|reflexivity..].
Qed.

Lemma stored_records_lookup σ σ' path :
  σ' !! path = σ !! path → stored_records σ' path = stored_records σ path.
Proof. unfold stored_records. by intros ->. Qed.

(** What the sweep leaves in the store file. *)
Lemma sweep_store e σ :
  (GenerateKeyCombos.main e σ).2 !! store_path = σ !! store_path ∨
  ∃ exe_path response results recs,
    found_exe σ = Some exe_path ∧ stdin e = Line response ∧
    generate_combinations e exe_path = Ok results ∧
    sorted GenerateKeyCombos.sort_key results = Ok recs ∧
    (GenerateKeyCombos.main e σ).2 !! store_path
    = Some (store_of (now e) recs).
Proof.
  rewrite sweep_main_unfold.
  destruct (found_exe σ) as [exe_path|]; [|by left].
  destruct (stdin e) as [response| |]; [|by left..].
  destruct (generate_combinations e exe_path) as [results|] eqn:Hg;
    [|by left].
  destruct (sorted GenerateKeyCombos.sort_key results) as [recs|] eqn:Hs;
    [|by left].
  right. exists exe_path, response, results, recs. split_and!; try done.
  rewrite (calm_then_keeps store_path); [by rewrite lookup_insert_eq|].
  by apply sweep_write_report_calm.
Qed.

(** What the retry tool leaves in the store file. *)
Lemma retry_store e σ :
  (RetryFailedCombos.main e σ).2 !! store_path = σ !! store_path ∨
  ∃ new_results all_results recs,
    merge_into (stored_records σ store_path) new_results = Ok all_results ∧
    sorted RetryFailedCombos.sort_key all_results = Ok recs ∧
    (RetryFailedCombos.main e σ).2 !! store_path
    = Some (store_of (now e) recs).
Proof.
  rewrite retry_main_unfold.
  destruct (found_exe σ) as [exe_path|]; [|by left].
  destruct (find_failed_combinations _) as [|c failed]; [by left|].
  destruct (stdin e) as [response| |]; [|by left..].
  destruct (negb _); [by left|].
  destruct (retry_failed_combinations e exe_path (c :: failed))
    as [[|r new_results]|]; [by left| |by left].
  destruct (merge_into _ _) as [all_results|] eqn:Hm; [|by left].
  destruct (sorted RetryFailedCombos.sort_key all_results) as [recs|] eqn:Hs;
    [|by left].
  right. exists (r :: new_results), all_results, recs. split_and!; try done.
  rewrite (calm_then_keeps store_path);
    [|by apply retry_write_report_calm].
  rewrite lookup_insert_eq. unfold store_of.
  apply sorted_spec in Hs as [Hperm _].
  by rewrite (Permutation_length Hperm).
Qed.

(** The records of the sweep have sort keys of one shape, so the sort of
    [main] succeeds on them. *)
Lemma sweep_sorted_total e exe_path results :
  generate_combinations e exe_path = Ok results →
  ∃ recs, sorted GenerateKeyCombos.sort_key results = Ok recs.
Proof.
  intros Hg. apply generate_combinations_produced in Hg.
  apply (sorted_total _ _ [1; 1; 1; 2]).
  eapply Forall_impl; [exact Hg|]. intros r Hr.
  apply produced_keys in Hr as (key & c & s & a & _ & _ & -> & _). eauto.
Qed.



Example retry_writes_by_key_first :
  (RetryFailedCombos.main sample_env installed_fs).2 !! store_path
  = Some (store_of (now sample_env) [plain_a; ctrl_a_old; plain_b]).
Proof. vm_compute. reflexivity. Qed.

Example sweep_writes_by_modifiers_first :
  (GenerateKeyCombos.main sample_env installed_fs).2 !! store_path
  = Some (store_of (now sample_env) [plain_a; ctrl_a_old]).
Proof. vm_compute. reflexivity. Qed.


End stores.
Section retry_invariants.

Lemma getitem_Ok v k x :
  getitem v k = Ok x → ∃ f, v = JObj f ∧ lookup_field k f = Some x.
Proof.
  destruct v; try done. simpl.
  destruct (lookup_field k fields) eqn:Hl; [|done]. intros [= <-]. eauto.
Qed.

(** One turn of the loop of [load_existing_combinations] on a plain
    record. *)
Lemma load_turn_plain (r : json) (acc : gset (atom * atom * atom * atom)) :
  plain_record r →
  ∃ c, record_key r = Some c ∧
    (key ← getitem r "key";
     mods ← getitem r "modifiers";
     ctrl ← getitem mods "ctrl";
     shift ← getitem mods "shift";
     alt ← getitem mods "alt";
     key ← atom_of key; ctrl ← atom_of ctrl;
     shift ← atom_of shift; alt ← atom_of alt;
     mret ({[ (key, ctrl, shift, alt) ]} ∪ acc))
    = Ok ({[ combo_atoms c ]} ∪ acc).
Proof.
  intros (key & ctrl & shift & alt & mods & Hk & Hm & Hc & Hs & Ha).
  exists (key, ctrl, shift, alt). rewrite Hk, Hm. simpl.
  rewrite Hc, Hs, Ha. simpl. split; [|done].
  apply getitem_Ok in Hk as (f & -> & Hk), Hm as (f' & [= <-] & Hm).
  apply getitem_Ok in Hc as (m & -> & Hc), Hs as (? & [= <-] & Hs),
    Ha as (? & [= <-] & Ha).
  unfold record_key. rewrite Hm, Hk. simpl. by rewrite Hc, Hs, Ha.
Qed.

Lemma load_loop_plain (records : list json) (acc : gset (atom * atom * atom * atom)) :
  Forall plain_record records →
  for_each_r records (λ combo combinations,
    key ← getitem combo "key";
    mods ← getitem combo "modifiers";
    ctrl ← getitem mods "ctrl";
    shift ← getitem mods "shift";
    alt ← getitem mods "alt";
    key ← atom_of key; ctrl ← atom_of ctrl;
    shift ← atom_of shift; alt ← atom_of alt;
    mret ({[ (key, ctrl, shift, alt) ]} ∪ combinations)) acc
  = Ok (list_to_set (combo_atoms <$> keyed records) ∪ acc).
Proof.
  intros Hall. revert acc.
  induction Hall as [|r records Hr _ IH]; intros acc; simpl.
  - f_equal. set_solver.
  - destruct (load_turn_plain r acc Hr) as (c & Hc & ->). simpl.
    rewrite IH. f_equal. unfold keyed. simpl. rewrite Hc. simpl. set_solver.
Qed.

(** On a store of plain records, [load_existing_combinations] returns the
    keys of the records. *)
Lemma loaded_keys_plain σ generated_at records :
  σ !! store_path = Some (store_of generated_at records) →
  Forall plain_record records →
  loaded_keys σ store_path = list_to_set (combo_atoms <$> keyed records).
Proof.
  intros Hσ Hall.
  assert (load_existing_combinations store_path σ
          = (Ok (list_to_set (combo_atoms <$> keyed records)), σ)) as Hload.
  { unfold load_existing_combinations. rewrite bind_run.
    unfold path_exists at 1.
    rewrite bool_decide_eq_true_2 by (by rewrite Hσ). cbn [negb].
    unfold try_except.
    rewrite (bind_run (json_load store_path)). unfold json_load. rewrite Hσ.
    unfold store_of. cbv beta iota.
    rewrite (bind_run (lift _)). unfold lift.
    match goal with
    | |- context [?g ≫= (λ l, iterate l)] =>
        change (g ≫= (λ l, iterate l)) with (Ok records : result (list json))
    end.
    cbv beta iota. rewrite (load_loop_plain records ∅ Hall).
    do 2 f_equal. set_solver. }
  unfold loaded_keys. by rewrite Hload.
Qed.

Lemma combo_atoms_inj : Inj (=) (=) combo_atoms.
Proof.
  intros [[[k1 c1] s1] a1] [[[k2 c2] s2] a2]. unfold combo_atoms.
  intros [= -> Hc Hs Ha].
  by destruct c1, c2, s1, s2, a1, a2.
Qed.

Lemma stored_records_written σ generated_at records :
  σ !! store_path = Some (store_of generated_at records) →
  stored_records σ store_path = records.
Proof. unfold stored_records. by intros ->. Qed.



Example retry_sample_missing_set :
  length (find_failed_combinations (loaded_keys installed_fs store_path)) = 591.
Proof. vm_compute. reflexivity. Qed.

Example retry_sample_store_grows :
  length (stored_records installed_fs store_path) = 1 ∧
  length (stored_records (RetryFailedCombos.main sample_env installed_fs).2
            store_path) = 3.
Proof. split; vm_compute; reflexivity. Qed.

End retry_invariants.
